(** * add-frontmatter: a shallow embedding of [scripts/add-frontmatter.py]

    The script walks the Markdown files below a fixed documentation root and
    prepends a YAML front-matter block to every file that does not start
    with one.  The metadata of the block comes from a curated table
    ([METADATA_MAP]) or, failing that, from substring heuristics over the
    file path and from two regular expressions over the content.

    Modelling choices.
    - Text is [string]: the development covers ASCII text, on which Python's
      [str] methods ([lower], [strip], [title], [replace], [in]) are the
      functions below.
    - A [pathlib.Path] is modelled by its [str()]; [stem] works on it.
    - Python's [set] of tags is a [gset string]; [dict]s keyed by paths are
      [gmap string _]; the file system is a [gmap] from path to the
      characters stored in the file.
    - [re.search] and [re.sub] are a small backtracking matcher over a
      pattern syntax tree, with Python's priorities (greedy and lazy
      quantifiers, ordered alternatives, leftmost start).
    - [create_frontmatter] is [render] after [resolve_metadata]: the two
      halves of its body.
    - [date.today().isoformat()] is the parameter [today].
    - File access can fail ([open] of a missing file): such functions return
      [option].  The file system holds regular files that can be read and
      written; over these a run is shown to end.

    Layout: the functions of the script, then the notions the
    specification uses, then the properties: tags, the curated table, one
    run and a second run, and the two patterns line by line. *)

From Stdlib Require Import Ascii NArith Lia.
From stdpp Require Import base gmap sets list strings sorting pretty.

Local Open Scope string_scope.

(** ** Characters and Python's [str] methods *)

Definition LF : ascii := "010"%char.
Definition CR : ascii := "013"%char.
Definition nl : string := String LF EmptyString.

Definition code (c : ascii) : N := N_of_ascii c.

(** [str.isspace] on one ASCII character: TAB, LF, VT, FF, CR, the four
    separators FS, GS, RS, US, and the space. *)
Definition is_space (c : ascii) : bool :=
  let n := code c in
  ((9 <=? n) && (n <=? 13) || (28 <=? n) && (n <=? 32))%N.

Definition is_upper (c : ascii) : bool := ((65 <=? code c) && (code c <=? 90))%N.
Definition is_lower (c : ascii) : bool := ((97 <=? code c) && (code c <=? 122))%N.
Definition to_lower (c : ascii) : ascii :=
  if is_upper c then ascii_of_N (code c + 32) else c.
Definition to_upper (c : ascii) : ascii :=
  if is_lower c then ascii_of_N (code c - 32) else c.

Fixpoint smap (f : ascii → ascii) (s : string) : string :=
  match s with
  | EmptyString => EmptyString
  | String c s' => String (f c) (smap f s')
  end.

(** [s.lower()] *)
Definition lower (s : string) : string := smap to_lower s.

Fixpoint is_prefix (p s : string) : bool :=
  match p, s with
  | EmptyString, _ => true
  | String a p', String b s' => if decide (a = b) then is_prefix p' s' else false
  | String _ _, EmptyString => false
  end.

(** [needle in hay] *)
Fixpoint contains (needle hay : string) : bool :=
  is_prefix needle hay ||
  match hay with
  | EmptyString => false
  | String _ hay' => contains needle hay'
  end.

Fixpoint drop_chars (n : nat) (s : string) : string :=
  match n, s with
  | O, _ => s
  | S n', String _ s' => drop_chars n' s'
  | S _, EmptyString => EmptyString
  end.

(** [s[:n]] *)
Fixpoint take_chars (n : nat) (s : string) : string :=
  match n, s with
  | S n', String c s' => String c (take_chars n' s')
  | _, _ => EmptyString
  end.

(** [s.replace(old, new)] for a non-empty [old]: every occurrence, left to
    right, without overlap.  [skip] counts the characters of an occurrence
    that are still to be passed over. *)
Fixpoint replace_from (old new : string) (skip : nat) (s : string) : string :=
  match s with
  | EmptyString => EmptyString
  | String c s' =>
      match skip with
      | S k => replace_from old new k s'
      | O =>
          if is_prefix old s
          then new +:+ replace_from old new (String.length old - 1) s'
          else String c (replace_from old new 0 s')
      end
  end.
Definition replace (old new s : string) : string := replace_from old new 0 s.

Fixpoint lstrip (s : string) : string :=
  match s with
  | EmptyString => EmptyString
  | String c s' => if is_space c then lstrip s' else s
  end.

Fixpoint rstrip (s : string) : string :=
  match s with
  | EmptyString => EmptyString
  | String c s' =>
      match rstrip s' with
      | EmptyString => if is_space c then EmptyString else String c EmptyString
      | r => String c r
      end
  end.

(** [s.strip()] *)
Definition strip (s : string) : string := rstrip (lstrip s).

(** [s.title()]: a cased character is put in upper case when the character
    before it is not cased, in lower case otherwise. *)
Fixpoint title_from (prev_cased : bool) (s : string) : string :=
  match s with
  | EmptyString => EmptyString
  | String c s' =>
      if is_upper c || is_lower c
      then String (if prev_cased then to_lower c else to_upper c) (title_from true s')
      else String c (title_from false s')
  end.
Definition title_case (s : string) : string := title_from false s.

(** ** Paths *)

(** The part after the last slash ([PurePath.name]). *)
Fixpoint name_from (acc : string) (s : string) : string :=
  match s with
  | EmptyString => acc
  | String c s' => if decide (c = "/"%char) then name_from s' s' else name_from acc s'
  end.
Definition path_name (p : string) : string := name_from p p.

(** Index of the last dot of [s], counted from [i]. *)
Fixpoint rfind_dot (i : nat) (s : string) : option nat :=
  match s with
  | EmptyString => None
  | String c s' =>
      match rfind_dot (S i) s' with
      | Some j => Some j
      | None => if decide (c = "."%char) then Some i else None
      end
  end.

(** [PurePath.stem]: the name without its last suffix; a dot in first or in
    last position starts no suffix. *)
Definition stem (p : string) : string :=
  let name := path_name p in
  match rfind_dot 0 name with
  | Some i =>
      if (0 <? i)%nat && (i <? String.length name - 1)%nat
      then take_chars i name else name
  | None => name
  end.

(** ** Regular expressions: the fragment of [re] the script uses *)

Module Re.

Record flags := { multiline : bool; dotall : bool }.

(** One-character items: a literal, [.], and [\s]. *)
Inductive atom := Lit (c : ascii) | Dot | Space.

(** Patterns.  Quantifiers apply to one-character items, as in the three
    patterns of the script; [Rep greedy min a] is [a*], [a+] or the lazy
    [a*?], [a+?]; [Opt p] is the greedy [(?:p)?]; [Group p] is capture
    group 1. *)
Inductive pattern :=
| Eps
| One (a : atom)
| Bol
| Eol
| Seq (p q : pattern)
| Alt (p q : pattern)
| Rep (greedy : bool) (min : nat) (a : atom)
| Opt (p : pattern)
| Group (p : pattern).

Record rmatch := { whole : string; group1 : option string; after : string }.

Definition atom_ok (fl : flags) (a : atom) (c : ascii) : bool :=
  match a with
  | Lit d => bool_decide (c = d)
  | Dot => dotall fl || negb (bool_decide (c = LF))
  | Space => is_space c
  end.

(** [^]: at the start of the text and, under MULTILINE, after a newline. *)
Definition at_bol (fl : flags) (prev : option ascii) : bool :=
  match prev with
  | None => true
  | Some c => multiline fl && bool_decide (c = LF)
  end.

(** [$]: at the end of the text, before a newline that ends the text and,
    under MULTILINE, before any newline. *)
Definition at_eol (fl : flags) (s : string) : bool :=
  match s with
  | EmptyString => true
  | String c EmptyString => bool_decide (c = LF)
  | String c _ => multiline fl && bool_decide (c = LF)
  end.

Definition consumed (s s' : string) : string :=
  take_chars (String.length s - String.length s') s.

(** A quantified one-character item, from text [s] on, [n] characters of
    it taken so far; [k] is the rest of the pattern.  The greedy form takes
    as many characters as it can and gives them back one by one; the lazy
    form stops as early as the rest of the pattern allows. *)
Fixpoint rep {R} (fl : flags) (greedy : bool) (min : nat) (a : atom)
    (cap : option string) (k : option ascii → string → option string → option R)
    (n : nat) (prev : option ascii) (s : string) {struct s} : option R :=
  if greedy then
    match
      match s with
      | String c s' =>
          if atom_ok fl a c then rep fl greedy min a cap k (S n) (Some c) s' else None
      | EmptyString => None
      end
    with
    | Some r => Some r
    | None => if (min <=? n)%nat then k prev s cap else None
    end
  else
    match (if (min <=? n)%nat then k prev s cap else None) with
    | Some r => Some r
    | None =>
        match s with
        | String c s' =>
            if atom_ok fl a c then rep fl greedy min a cap k (S n) (Some c) s' else None
        | EmptyString => None
        end
    end.

(** The backtracking matcher, in continuation-passing style: [k] is the
    rest of the pattern; the first success in priority order wins.
    [prev] is the character before the position, [s] the text from the
    position on, [cap] the text of group 1 so far. *)
Fixpoint run {R} (fl : flags) (p : pattern) (prev : option ascii) (s : string)
    (cap : option string)
    (k : option ascii → string → option string → option R) : option R :=
  match p with
  | Eps => k prev s cap
  | One a =>
      match s with
      | String c s' => if atom_ok fl a c then k (Some c) s' cap else None
      | EmptyString => None
      end
  | Bol => if at_bol fl prev then k prev s cap else None
  | Eol => if at_eol fl s then k prev s cap else None
  | Seq p q => run fl p prev s cap (λ prev' s' cap', run fl q prev' s' cap' k)
  | Alt p q =>
      match run fl p prev s cap k with
      | Some r => Some r
      | None => run fl q prev s cap k
      end
  | Opt p =>
      match run fl p prev s cap k with
      | Some r => Some r
      | None => k prev s cap
      end
  | Group p => run fl p prev s cap (λ prev' s' _, k prev' s' (Some (consumed s s')))
  | Rep greedy min a => rep fl greedy min a cap k 0 prev s
  end.

Definition match_here (fl : flags) (p : pattern) (prev : option ascii) (s : string)
    : option rmatch :=
  run fl p prev s None
    (λ _ s' cap, Some {| whole := consumed s s'; group1 := cap; after := s' |}).

Fixpoint search_from (fl : flags) (p : pattern) (prev : option ascii) (s : string)
    : option rmatch :=
  match match_here fl p prev s with
  | Some m => Some m
  | None =>
      match s with
      | EmptyString => None
      | String c s' => search_from fl p (Some c) s'
      end
  end.

(** [re.search(p, s, flags)]: the match at the leftmost start. *)
Definition search (fl : flags) (p : pattern) (s : string) : option rmatch :=
  search_from fl p None s.

Fixpoint last_char (prev : option ascii) (s : string) : option ascii :=
  match s with
  | EmptyString => prev
  | String c s' => last_char (Some c) s'
  end.

(** [re.sub(p, repl, s)]: every match, left to right, is replaced; after
    an empty match one character is copied. *)
Fixpoint sub_from (fuel : nat) (fl : flags) (p : pattern) (repl : string)
    (prev : option ascii) (s : string) : string :=
  match fuel with
  | O => s
  | S fuel' =>
      match match_here fl p prev s with
      | Some m =>
          match whole m with
          | EmptyString =>
              match s with
              | EmptyString => repl
              | String c s' => repl +:+ String c (sub_from fuel' fl p repl (Some c) s')
              end
          | w => repl +:+ sub_from fuel' fl p repl (last_char prev w) (after m)
          end
      | None =>
          match s with
          | EmptyString => EmptyString
          | String c s' => String c (sub_from fuel' fl p repl (Some c) s')
          end
      end
  end.
Definition sub (fl : flags) (p : pattern) (repl s : string) : string :=
  sub_from (S (String.length s)) fl p repl None s.

Definition no_flags : flags := {| multiline := false; dotall := false |}.
Definition M : flags := {| multiline := true; dotall := false |}.
Definition MS : flags := {| multiline := true; dotall := true |}.

End Re.

Import Re.

(** [r'^#\s+(.+)$'] *)
Definition heading_re : pattern :=
  Seq Bol (Seq (One (Lit "#")) (Seq (Rep true 1 Space)
    (Seq (Group (Rep true 1 Dot)) Eol))).

(** [(?:\n\n|\n##)] *)
Definition end_re : pattern :=
  Alt (Seq (One (Lit LF)) (One (Lit LF)))
      (Seq (One (Lit LF)) (Seq (One (Lit "#")) (One (Lit "#")))).

(** [r'^(?:#.*?\n+)?(.+?)(?:\n\n|\n##)'] *)
Definition desc_re : pattern :=
  Seq Bol
    (Seq (Opt (Seq (One (Lit "#")) (Seq (Rep false 0 Dot) (Rep true 1 (Lit LF)))))
      (Seq (Group (Rep false 1 Dot)) end_re)).

(** [r'\s+'] *)
Definition spaces_re : pattern := Rep true 1 Space.

(** ** The metadata table *)

(** A metadata record: the dictionaries of [METADATA_MAP] and the five
    values [create_frontmatter] renders.  [difficulty] is optional
    ([meta.get('difficulty')], and [None] from [infer_difficulty]). *)
Record Metadata := {
  title : string;
  description : string;
  category : string;
  tags : list string;
  difficulty : option string
}.

Definition METADATA_MAP : gmap string Metadata :=
  list_to_map [
    ("adr/002-three-tier-hierarchy.md",
     {| title := "ADR-002: Three-Tier BBS Hierarchy";
        description := "Decision to use three-tier hierarchy (Zone/Section/Forum) for BBS organization";
        category := "reference";
        tags := ["adr"; "architecture"; "nostr"; "channels"; "design"];
        difficulty := Some "advanced" |});
    ("adr/003-gcp-cloud-run-infrastructure.md",
     {| title := "ADR-003: GCP Cloud Run Infrastructure";
        description := "Decision to deploy relay on Google Cloud Run with PostgreSQL storage";
        category := "reference";
        tags := ["adr"; "deployment"; "gcp"; "infrastructure"; "devops"];
        difficulty := Some "advanced" |});
    ("adr/004-zone-based-access-control.md",
     {| title := "ADR-004: Zone-Based Access Control";
        description := "Decision to implement zone-based cohort access control using admin whitelists";
        category := "reference";
        tags := ["adr"; "security"; "access-control"; "zones"; "admin"];
        difficulty := Some "advanced" |});
    ("adr/005-nip-44-encryption-mandate.md",
     {| title := "ADR-005: NIP-44 Encryption Mandate";
        description := "Decision to mandate NIP-44 encryption for all new encrypted content";
        category := "reference";
        tags := ["adr"; "security"; "encryption"; "nostr"; "nip-44"];
        difficulty := Some "advanced" |});
    ("adr/006-client-side-wasm-search.md",
     {| title := "ADR-006: Client-Side WASM Search";
        description := "Decision to implement client-side semantic search using WASM and HNSW indexing";
        category := "reference";
        tags := ["adr"; "search"; "wasm"; "performance"; "pwa"];
        difficulty := Some "advanced" |});
    ("adr/007-sveltekit-ndk-frontend.md",
     {| title := "ADR-007: SvelteKit + NDK Frontend";
        description := "Decision to use SvelteKit with NDK for frontend development";
        category := "reference";
        tags := ["adr"; "architecture"; "frontend"; "svelte"; "ndk"];
        difficulty := Some "intermediate" |});
    ("adr/008-postgresql-relay-storage.md",
     {| title := "ADR-008: PostgreSQL Relay Storage";
        description := "Decision to use PostgreSQL for relay event storage with strfry";
        category := "reference";
        tags := ["adr"; "database"; "postgresql"; "relay"; "storage"];
        difficulty := Some "advanced" |});
    ("adr/009-user-registration-flow.md",
     {| title := "ADR-009: User Registration Flow";
        description := "Decision on simplified user registration with password-based key derivation";
        category := "reference";
        tags := ["adr"; "authentication"; "user"; "registration"; "security"];
        difficulty := Some "intermediate" |})
  ].

(** ** Heuristic inference *)

(** [extract_title_from_heading]: group 1 of the first match of
    [heading_re] under MULTILINE, stripped; [None] without a match.  Group 1
    takes part in every match of the pattern. *)
Definition extract_title_from_heading (content : string) : option string :=
  match Re.search Re.M heading_re content with
  | Some m => Some (strip (default EmptyString (group1 m)))
  | None => None
  end.

Definition infer_category (filepath : string) : string :=
  let path_str := lower filepath in
  if contains "tutorial" path_str || contains "getting-started" path_str then "tutorial"
  else if contains "howto" path_str || contains "guide" path_str then "howto"
  else if contains "reference" path_str || contains "api" path_str
          || contains "adr" path_str then "reference"
  else if contains "explanation" path_str || contains "architecture" path_str
          || contains "ddd" path_str then "explanation"
  else if contains "user" path_str then "tutorial"
  else if contains "developer" path_str then "reference"
  else "reference".

(** The tag rules of [infer_tags], in source order: the tag a rule adds and
    its test on the lowercased path and the lowercased title. *)
Definition tag_rules : list (string * (string → string → bool)) := [
  ("user", λ path_str _, contains "user" path_str);
  ("developer", λ path_str _, contains "developer" path_str || contains "dev" path_str);
  ("admin", λ path_str _, contains "admin" path_str);
  ("nostr", λ path_str title_lower, contains "nostr" path_str || contains "nostr" title_lower);
  ("authentication", λ path_str title_lower, contains "auth" path_str || contains "auth" title_lower);
  ("messaging", λ path_str _, contains "message" path_str || contains "dm" path_str);
  ("channels", λ path_str _, contains "channel" path_str || contains "chat" path_str);
  ("security", λ path_str title_lower,
     contains "security" path_str || contains "security" title_lower);
  ("deployment", λ path_str _, contains "deploy" path_str);
  ("adr", λ path_str _, contains "adr" path_str);
  ("architecture", λ path_str title_lower,
     contains "architecture" path_str || contains "architecture" title_lower);
  ("ddd", λ path_str _, contains "ddd" path_str);
  ("guide", λ path_str title_lower, contains "guide" path_str || contains "guide" title_lower);
  ("reference", λ path_str _, contains "reference" path_str || contains "api" path_str);
  ("calendar", λ path_str _, contains "calendar" path_str || contains "event" path_str);
  ("search", λ path_str _, contains "search" path_str);
  ("zones", λ path_str _, contains "zone" path_str);
  ("pwa", λ path_str _, contains "pwa" path_str)
].

(** One [if cond: tags.add(tag)]. *)
Definition apply_rule (path_str title_lower : string) (acc : gset string)
    (r : string * (string → string → bool)) : gset string :=
  if r.2 path_str title_lower then acc ∪ {[ r.1 ]} else acc.

Definition path_and_title (filepath : string) (title : option string) : string * string :=
  (lower filepath,
   match title with
   | Some (String c t) => lower (String c t)
   | _ => EmptyString
   end).

(** The set [tags] of [infer_tags] after its rules, before the step that
    ensures two tags. *)
Definition heuristic_tags (filepath : string) (title : option string) : gset string :=
  let '(path_str, title_lower) := path_and_title filepath title in
  foldl (apply_rule path_str title_lower) ∅ tag_rules.

(** The rules that match, for statements that count them. *)
Definition matching_rules (filepath : string) (title : option string) : list string :=
  let '(path_str, title_lower) := path_and_title filepath title in
  (filter (λ r, r.2 path_str title_lower = true) tag_rules).*1.

(** [# Ensure at least 2 tags] *)
Definition ensure_two (tags : gset string) : gset string :=
  let tags := if (size tags =? 0)%nat then tags ∪ {[ "documentation" ]} else tags in
  if (size tags =? 1)%nat then tags ∪ {[ "guide" ]} else tags.

(** [sorted(list(tags))] *)
Definition sorted (tags : gset string) : list string :=
  merge_sort String.le (elements tags).

Definition infer_tags (filepath : string) (title : option string) : list string :=
  sorted (ensure_two (heuristic_tags filepath title)).

Definition infer_difficulty (filepath : string) : option string :=
  let path_str := lower filepath in
  if contains "user" path_str || contains "getting-started" path_str then Some "beginner"
  else if contains "adr" path_str || contains "architecture" path_str
          || contains "ddd" path_str then Some "advanced"
  else if contains "developer" path_str then Some "intermediate"
  else None.

(** ** Resolving and rendering *)

Definition docs_dir : string := "/home/devuser/workspace/project2/docs".
Definition docs_prefix : string := docs_dir +:+ "/".

Definition dquote : ascii := "034"%char.
Definition squote : ascii := "039"%char.
Definition backslash : ascii := "092"%char.
Definition str1 (c : ascii) : string := String c EmptyString.

Definition hex_digit (n : N) : ascii :=
  if (n <? 10)%N then ascii_of_N (48 + n) else ascii_of_N (87 + n).

(** [repr] of a [str]: single quotes unless the text holds a single quote
    and no double quote; backslash, the chosen quote and the control
    characters are escaped. *)
Definition repr_char (q c : ascii) : string :=
  if decide (c = backslash) then String backslash (str1 backslash)
  else if decide (c = q) then String backslash (str1 q)
  else if decide (c = "009"%char) then String backslash "t"
  else if decide (c = LF) then String backslash "n"
  else if decide (c = CR) then String backslash "r"
  else if ((code c <? 32) || (code c =? 127))%N
       then String backslash
              (String "x" (String (hex_digit (code c / 16)) (str1 (hex_digit (code c mod 16)))))
  else str1 c.

Fixpoint repr_body (q : ascii) (s : string) : string :=
  match s with
  | EmptyString => EmptyString
  | String c s' => repr_char q c +:+ repr_body q s'
  end.

Definition repr_str (s : string) : string :=
  let q := if contains (str1 squote) s && negb (contains (str1 dquote) s)
           then dquote else squote in
  str1 q +:+ repr_body q s +:+ str1 q.

Fixpoint join (sep : string) (l : list string) : string :=
  match l with
  | [] => EmptyString
  | [x] => x
  | x :: l' => x +:+ sep +:+ join sep l'
  end.

(** [repr] of a list of [str], what [f"{tags}"] prints. *)
Definition repr_list (l : list string) : string :=
  "[" +:+ join ", " (repr_str <$> l) +:+ "]".

(** The title of a file without a curated entry: the heading, or the stem
    of the file name when there is none or it is empty. *)
Definition heuristic_title (filepath content : string) : string :=
  match extract_title_from_heading content with
  | Some (String c t) => String c t
  | _ => title_case (replace "_" " " (replace "-" " " (stem filepath)))
  end.

(** The description of a file without a curated entry. *)
Definition heuristic_description (title content : string) : string :=
  match Re.search Re.MS desc_re content with
  | Some m =>
      let description := strip (default EmptyString (group1 m)) in
      take_chars 200 (Re.sub Re.no_flags spaces_re " " description)
  | None => title +:+ " documentation"
  end.

(** [str(filepath).replace('/home/devuser/workspace/project2/docs/', '')] *)
Definition relative_path (filepath : string) : string :=
  replace docs_prefix EmptyString filepath.

(** The first half of [create_frontmatter]: the five values, from the
    curated table or by inference. *)
Definition resolve_metadata (filepath content : string) : Metadata :=
  match METADATA_MAP !! relative_path filepath with
  | Some meta =>
      {| title := title meta;
         description := description meta;
         category := category meta;
         tags := tags meta;
         difficulty := difficulty meta |}
  | None =>
      let title := heuristic_title filepath content in
      {| title := title;
         description := heuristic_description title content;
         category := infer_category filepath;
         tags := infer_tags filepath (Some title);
         difficulty := infer_difficulty filepath |}
  end.

(** The second half of [create_frontmatter]: the block, in fixed order;
    [difficulty] is printed when it is neither [None] nor empty. *)
Definition render (today : string) (meta : Metadata) : string :=
  "---" +:+ nl
  +:+ "title: " +:+ str1 dquote +:+ title meta +:+ str1 dquote +:+ nl
  +:+ "description: " +:+ str1 dquote +:+ description meta +:+ str1 dquote +:+ nl
  +:+ "category: " +:+ category meta +:+ nl
  +:+ "tags: " +:+ repr_list (tags meta) +:+ nl
  +:+ match difficulty meta with
      | Some (String c d) => "difficulty: " +:+ String c d +:+ nl
      | _ => EmptyString
      end
  +:+ "last-updated: " +:+ today +:+ nl
  +:+ "---" +:+ nl +:+ nl.

Definition create_frontmatter (today filepath content : string) : string :=
  render today (resolve_metadata filepath content).

(** ** Files *)

(** What text mode hands to the program for the characters of a file:
    [CR LF] and a lone [CR] are read as [LF] (universal newlines).  Writing
    stores the text as it is (the line separator of the platform of
    [docs_dir] is [LF]). *)
Fixpoint universal_newlines (s : string) : string :=
  match s with
  | EmptyString => EmptyString
  | String c s' =>
      if decide (c = CR) then
        String LF (match s' with
                   | String d s'' => if decide (d = LF) then universal_newlines s''
                                     else universal_newlines s'
                   | EmptyString => EmptyString
                   end)
      else String c (universal_newlines s')
  end.

(** [f.readline()] on a fresh handle: the text up to and with the first
    newline. *)
Fixpoint readline (text : string) : string :=
  match text with
  | EmptyString => EmptyString
  | String c t => if decide (c = LF) then str1 LF else String c (readline t)
  end.

Definition delimiter : string := "---".

(** The test of [has_frontmatter] on the characters of a file. *)
Definition starts_with_frontmatter (stored : string) : bool :=
  bool_decide (strip (readline (universal_newlines stored)) = delimiter).

Definition has_frontmatter (fs : gmap string string) (filepath : string) : option bool :=
  starts_with_frontmatter <$> fs !! filepath.

(** What [add_frontmatter_to_file] writes over a file that holds [stored]. *)
Definition with_frontmatter (today filepath stored : string) : string :=
  let content := universal_newlines stored in
  create_frontmatter today filepath content +:+ content.

Definition add_frontmatter_to_file (today filepath : string) (fs : gmap string string)
    : option (bool * gmap string string) :=
  match has_frontmatter fs filepath with
  | None => None
  | Some true => Some (false, fs)
  | Some false =>
      match fs !! filepath with
      | None => None
      | Some stored => Some (true, <[filepath := with_frontmatter today filepath stored]> fs)
      end
  end.

Fixpoint is_suffix_from (suf s : string) : bool :=
  bool_decide (s = suf) ||
  match s with
  | EmptyString => false
  | String _ s' => is_suffix_from suf s'
  end.

(** A path [docs_dir.rglob('*.md')] yields: below [docs_dir], the name
    ending in [.md]. *)
Definition is_doc (p : string) : bool := is_prefix docs_prefix p && is_suffix_from ".md" p.

(** The components of a path, split at the slashes. *)
Fixpoint components (p : string) : list string :=
  match p with
  | EmptyString => [EmptyString]
  | String c p' =>
      if decide (c = "/"%char) then EmptyString :: components p'
      else match components p' with
           | x :: xs => String c x :: xs
           | [] => [str1 c]
           end
  end.

(** The order of the walk of [rglob] on two paths, by their components:
    the entries of a directory come before what its subdirectories hold,
    and the subdirectories are walked one after the other.  The order of
    the entries of one directory is the operating system's; the model takes
    them by name. *)
Fixpoint walk_leb (a b : list string) : bool :=
  match a, b with
  | [], _ => true
  | _ :: _, [] => false
  | x :: a', y :: b' =>
      match a', b' with
      | [], [] => bool_decide (String.le x y)
      | [], _ :: _ => true
      | _ :: _, [] => false
      | _ :: _, _ :: _ =>
          if decide (x = y) then walk_leb a' b' else bool_decide (String.le x y)
      end
  end.

Definition walk_le (p q : string) : Prop :=
  walk_leb (components p) (components q) = true.

#[global] Instance walk_le_dec : RelDecision walk_le.
Proof. intros p q. unfold walk_le. apply _. Defined.

(** The files [docs_dir.rglob('*.md')] yields, in the order of its walk.
    The file system of the model holds regular files that can be read and
    written: a directory named [*.md], on which [open] raises, a file that
    cannot be decoded and a symbolic link are outside it. *)
Definition rglob_md (fs : gmap string string) : list string :=
  merge_sort walk_le (filter (λ p, is_doc p = true) (elements (dom fs))).

(** [str(md_file.relative_to(docs_dir))] for a file below [docs_dir]. *)
Definition relative_to_docs (p : string) : string :=
  drop_chars (String.length docs_prefix) p.

(** The loop of [main]: the file system and [updated_files] are threaded
    through the files. *)
Fixpoint main_loop (today : string) (files : list string)
    (fs : gmap string string) (updated_files : list string)
    : option (gmap string string * list string) :=
  match files with
  | [] => Some (fs, updated_files)
  | md_file :: rest =>
      match add_frontmatter_to_file today md_file fs with
      | None => None
      | Some (true, fs') =>
          main_loop today rest fs' (updated_files ++ [relative_to_docs md_file])
      | Some (false, fs') => main_loop today rest fs' updated_files
      end
  end.

(** [main]: the file system after the run and [updated_files], whose length
    the run reports. *)
Definition main (today : string) (fs : gmap string string)
    : option (gmap string string * list string) :=
  main_loop today (rglob_md fs) fs [].

(** ** Notions of the specification *)

(** The first line of a file, as the specification speaks of it: the
    characters before the first line break. *)
Fixpoint first_line (stored : string) : string :=
  match stored with
  | EmptyString => EmptyString
  | String c s => if decide (c = LF ∨ c = CR) then EmptyString else String c (first_line s)
  end.

(** What a run leaves in a file that held [stored]. *)
Definition processed (today filepath stored : string) : string :=
  if starts_with_frontmatter stored then stored
  else with_frontmatter today filepath stored.

(** The lines of a text, split at the newlines. *)
Fixpoint lines (text : string) : list string :=
  match text with
  | EmptyString => [EmptyString]
  | String c t =>
      if decide (c = LF) then EmptyString :: lines t
      else match lines t with
           | l :: ls => String c l :: ls
           | [] => [str1 c]
           end
  end.

(** The text of a level-1 heading line, as the specification speaks of it:
    [#], white space, and a text on the same line. *)
Definition heading_text (line : string) : option string :=
  match line with
  | String "#" (String c rest) =>
      if is_space c
      then match strip rest with
           | EmptyString => None
           | t => Some t
           end
      else None
  | _ => None
  end.

Fixpoint first_heading (ls : list string) : option string :=
  match ls with
  | [] => None
  | l :: ls' =>
      match heading_text l with
      | Some t => Some t
      | None => first_heading ls'
      end
  end.

(** The title the specification states for a file without a curated
    entry: the text of the first level-1 heading, or else the base name
    with hyphens and underscores as spaces, in title case. *)
Definition title_by_spec (filepath content : string) : string :=
  match first_heading (lines content) with
  | Some t => t
  | None => title_case (replace "_" " " (replace "-" " " (stem filepath)))
  end.

(** A line that is [#] followed by white space alone: a heading without a
    text. *)
Definition bare_heading (line : string) : bool :=
  match line with
  | String "#" rest => bool_decide (strip rest = EmptyString)
  | _ => false
  end.

Fixpoint all_chars (f : ascii → bool) (s : string) : bool :=
  match s with
  | EmptyString => true
  | String c s' => f c && all_chars f s'
  end.

Definition not_LF (c : ascii) : bool := negb (bool_decide (c = LF)).

(** The characters before the first newline, and the text from that
    newline on. *)
Fixpoint line_of (text : string) : string :=
  match text with
  | EmptyString => EmptyString
  | String c t => if decide (c = LF) then EmptyString else String c (line_of t)
  end.

Fixpoint rest_of_line (text : string) : string :=
  match text with
  | EmptyString => EmptyString
  | String c t => if decide (c = LF) then text else rest_of_line t
  end.

(** The title taken from a match of the heading pattern. *)
Definition title_of_match (m : option rmatch) : option string :=
  match m with
  | Some m => Some (strip (default EmptyString (group1 m)))
  | None => None
  end.

(** The end of a first paragraph, as the specification speaks of it: a
    blank line or a level-2 heading starts here. *)
Definition paragraph_end (text : string) : bool :=
  is_prefix (nl +:+ nl) text || is_prefix (nl +:+ "##") text.

(** No paragraph end strictly inside [para], which is followed by [tail]. *)
Fixpoint no_end_inside (para tail : string) : bool :=
  match para with
  | EmptyString => true
  | String _ para' =>
      match para' with
      | EmptyString => true
      | _ => negb (paragraph_end (para' +:+ tail)) && no_end_inside para' tail
      end
  end.

(** The rest [k] of a pattern fails at every position of [w], which is
    followed by [rest]. *)
Fixpoint fails_within {R} (k : option ascii → string → option string → option R)
    (cap : option string) (w rest : string) : Prop :=
  match w with
  | EmptyString => True
  | String c w' =>
      (∀ prev, k prev (String c w' +:+ rest) cap = None) ∧ fails_within k cap w' rest
  end.

(** What [create_frontmatter] makes of the text of group 1. *)
Definition normalized (text : string) : string :=
  take_chars 200 (Re.sub Re.no_flags spaces_re " " (strip text)).

(** The end of every match: the text matched, group 1, the text left. *)
Definition finish (s0 : string) : option ascii → string → option string → option rmatch :=
  λ _ s' cap, Some {| whole := consumed s0 s'; group1 := cap; after := s' |}.

(** ** The vocabulary and the report of a run *)

(** [STANDARD_TAGS], the vocabulary the script declares. *)
Definition STANDARD_TAGS : gset string :=
  list_to_set [
    "user"; "developer"; "architect"; "devops"; "admin";
    "nostr"; "authentication"; "messaging"; "channels"; "security"; "deployment";
    "guide"; "reference"; "tutorial"; "concept"; "api"; "config";
    "dm"; "search"; "calendar"; "zones"; "pwa";
    "architecture"; "adr"; "ddd"; "documentation"
  ].

Fixpoint concat_lines (ls : list string) : string :=
  match ls with
  | [] => EmptyString
  | l :: ls' => l +:+ nl +:+ concat_lines ls'
  end.

(** The lines [main] prints as it updates files, one per file, in the
    order of [updated_files]. *)
Definition confirmations (updated_files : list string) : list string :=
  (λ relative_path, "✓ " +:+ relative_path) <$> updated_files.

(** The files of the final listing: [sorted(updated_files)]. *)
Definition listing (updated_files : list string) : list string :=
  merge_sort String.le updated_files.

(** What [main] writes to standard output, given the [updated_files] it
    ends with: the confirmations, two empty lines and the count, and, when
    a file was updated, an empty line, a header and the sorted listing. *)
Definition report (updated_files : list string) : string :=
  concat_lines (confirmations updated_files)
  +:+ nl +:+ nl +:+ "Updated " +:+ pretty (length updated_files) +:+ " files" +:+ nl
  +:+ match updated_files with
      | [] => EmptyString
      | _ => nl +:+ "Updated files:" +:+ nl
             +:+ concat_lines ((λ f, "  - " +:+ f) <$> listing updated_files)
      end.

Definition main_output (today : string) (fs : gmap string string) : option string :=
  (λ r, report r.2) <$> main today fs.

(** The files whose characters differ between two states of the file
    system. *)
Definition changed_files (fs fs' : gmap string string) : gset string :=
  dom (filter (λ kv, fs' !! kv.1 ≠ Some kv.2) fs).

(** [is_space c] implies [c] is the space character. *)
Definition plain_space (c : ascii) : bool :=
  negb (is_space c) || bool_decide (c = " "%char).

(** The file at [f] exists and fails the test of [has_frontmatter]. *)
Definition lacks_frontmatter (fs : gmap string string) (f : string) : bool :=
  match fs !! f with
  | Some stored => negb (starts_with_frontmatter stored)
  | None => false
  end.

(** One of the ten words of the path rules of [infer_category]. *)
Definition category_keyword (path_str : string) : bool :=
  contains "tutorial" path_str || contains "getting-started" path_str
  || contains "howto" path_str || contains "guide" path_str
  || contains "reference" path_str || contains "api" path_str || contains "adr" path_str
  || contains "explanation" path_str || contains "architecture" path_str
  || contains "ddd" path_str.

(** * Properties *)

(** ** Checks of the string functions *)

Example stem_auth : stem "/a/b/auth-setup.md" = "auth-setup".
Proof. reflexivity. Qed.
Example stem_dotfile : stem "/a/.md" = ".md".
Proof. reflexivity. Qed.
Example stem_two_dots : stem "/a/x.y.md" = "x.y".
Proof. reflexivity. Qed.
Example title_case_ex : title_case "foo2bar baz API" = "Foo2Bar Baz Api".
Proof. reflexivity. Qed.
Example replace_ex : replace "XX" EmptyString "aXbXXc" = "aXbc".
Proof. reflexivity. Qed.
Example replace_overlap : replace "aa" "b" "aaa" = "ba".
Proof. reflexivity. Qed.
Example strip_ex : strip (" " +:+ "--- " +:+ nl) = "---".
Proof. reflexivity. Qed.

Example sub_star :
  Re.sub no_flags (Rep true 0 (Lit "x")) "-" "abxd" = "-a-b--d-".
Proof. reflexivity. Qed.
Example sub_spaces :
  Re.sub no_flags spaces_re " " ("a  b" +:+ nl +:+ " c") = "a b c".
Proof. reflexivity. Qed.


(** ** Strings *)

Lemma app_cons (c : ascii) (a b : string) : String c a +:+ b = String c (a +:+ b).
Proof. reflexivity. Qed.

Lemma app_empty_l (b : string) : EmptyString +:+ b = b.
Proof. reflexivity. Qed.

Lemma lower_app (a b : string) : lower (a +:+ b) = lower a +:+ lower b.
Proof.
  unfold lower. induction a as [|c a IH]; [done|].
  rewrite app_cons. simpl. by rewrite IH.
Qed.

Lemma is_prefix_app_l (n a b : string) :
  is_prefix n a = true → is_prefix n (a +:+ b) = true.
Proof.
  revert a. induction n as [|x n IH]; intros a H; [done|].
  destruct a as [|y a]; [done|].
  rewrite app_cons. simpl in *. destruct (decide (x = y)); [by apply IH|done].
Qed.

Lemma contains_app_l (n a b : string) :
  contains n a = true → contains n (a +:+ b) = true.
Proof.
  induction a as [|c a IH]; intros H.
  - destruct n; [|done]. by destruct b.
  - rewrite app_cons. simpl in H. apply orb_true_iff in H as [H|H].
    + apply (is_prefix_app_l _ _ b) in H. rewrite app_cons in H.
      simpl. by rewrite H.
    + simpl. rewrite (IH H). apply orb_true_r.
Qed.

(** A needle found in the lowercased root is found in the lowercased path
    of every file below the root. *)
Lemma contains_below_docs (n rel : string) :
  contains n (lower docs_prefix) = true →
  contains n (lower (docs_prefix +:+ rel)) = true.
Proof. intros H. rewrite lower_app. by apply contains_app_l. Qed.

Lemma take_chars_length (n : nat) (s : string) :
  (String.length (take_chars n s) <= n)%nat.
Proof.
  revert s. induction n as [|n IH]; intros [|c s]; simpl; try lia.
  specialize (IH s). lia.
Qed.

(** ** Tags *)

Lemma apply_rules_mono (p t : string) (rules : list (string * (string → string → bool)))
    (acc : gset string) :
  acc ⊆ foldl (apply_rule p t) acc rules.
Proof.
  revert acc. induction rules as [|r rules IH]; intros acc; [done|].
  simpl. etrans; [|apply IH]. unfold apply_rule. destruct (r.2 p t); set_solver.
Qed.

Lemma apply_rules_hit (p t : string) (rules : list (string * (string → string → bool)))
    (acc : gset string) (r : string * (string → string → bool)) :
  r ∈ rules → r.2 p t = true → r.1 ∈ foldl (apply_rule p t) acc rules.
Proof.
  revert acc. induction rules as [|r' rules IH]; intros acc Hin Hr.
  - by apply elem_of_nil in Hin.
  - apply elem_of_cons in Hin as [->|Hin]; simpl.
    + apply (apply_rules_mono p t rules). unfold apply_rule. rewrite Hr. set_solver.
    + by apply IH.
Qed.

Lemma apply_rules_elem (p t : string) (rules : list (string * (string → string → bool)))
    (acc : gset string) (x : string) :
  x ∈ foldl (apply_rule p t) acc rules ↔
  x ∈ acc ∨ x ∈ (filter (λ r, r.2 p t = true) rules).*1.
Proof.
  revert acc. induction rules as [|r rules IH]; intros acc.
  - simpl. split; [by left|].
    intros [?|H]; [done|]. by apply elem_of_nil in H.
  - change (foldl (apply_rule p t) acc (r :: rules))
      with (foldl (apply_rule p t) (apply_rule p t acc r) rules).
    rewrite IH, filter_cons. unfold apply_rule.
    destruct (decide (r.2 p t = true)) as [Hr|Hr].
    + rewrite Hr, fmap_cons, elem_of_union, elem_of_singleton, elem_of_cons. tauto.
    + destruct (r.2 p t); [done|]. tauto.
Qed.

(** The set of tags before the last step holds the tags of the matching
    rules. *)
Lemma heuristic_tags_matching (filepath : string) (title : option string) :
  heuristic_tags filepath title = list_to_set (matching_rules filepath title).
Proof.
  unfold heuristic_tags, matching_rules.
  destruct (path_and_title filepath title) as [p t].
  apply set_eq. intros x. rewrite apply_rules_elem, elem_of_list_to_set.
  split; [|by right]. intros [H|H]; [|done]. by apply elem_of_empty in H.
Qed.

Lemma ensure_two_mono (X : gset string) : X ⊆ ensure_two X.
Proof.
  unfold ensure_two.
  destruct (size X =? 0)%nat;
    match goal with |- context [(size ?Y =? 1)%nat] => destruct (size Y =? 1)%nat end;
    set_solver.
Qed.

Lemma sorted_perm (X : gset string) : sorted X ≡ₚ elements X.
Proof. apply merge_sort_Permutation. Qed.

Lemma sorted_Sorted (X : gset string) : StronglySorted String.le (sorted X).
Proof. apply StronglySorted_merge_sort; apply _. Qed.

Lemma sorted_NoDup (X : gset string) : NoDup (sorted X).
Proof. rewrite sorted_perm. apply NoDup_elements. Qed.

Lemma sorted_elem (X : gset string) (x : string) : x ∈ sorted X ↔ x ∈ X.
Proof. rewrite sorted_perm. apply elem_of_elements. Qed.

Lemma sorted_length (X : gset string) : length (sorted X) = size X.
Proof. by rewrite sorted_perm. Qed.

Lemma two_distinct_size (X : gset string) (a b : string) :
  a ≠ b → a ∈ X → b ∈ X → (2 <= size X)%nat.
Proof.
  intros Hne Ha Hb.
  assert (Hsub : ({[a; b]} : gset string) ⊆ X).
  { intros x [Hx|Hx]%elem_of_union; apply elem_of_singleton in Hx; by subst. }
  apply subseteq_size in Hsub.
  rewrite size_union in Hsub by set_solver.
  by rewrite !size_singleton in Hsub.
Qed.

(** Below the documentation root the rules for [user] and [developer]
    always match: the root holds [devuser]. *)
Lemma user_in_tags_below_docs (rel : string) (title : option string) :
  "user" ∈ heuristic_tags (docs_prefix +:+ rel) title.
Proof.
  unfold heuristic_tags, path_and_title.
  apply (apply_rules_hit _ _ _ _ ("user", λ path_str _ : string, contains "user" path_str)).
  - unfold tag_rules. set_solver.
  - change (contains "user" (lower (docs_prefix +:+ rel)) = true).
    by apply contains_below_docs.
Qed.

Lemma developer_in_tags_below_docs (rel : string) (title : option string) :
  "developer" ∈ heuristic_tags (docs_prefix +:+ rel) title.
Proof.
  unfold heuristic_tags, path_and_title.
  apply (apply_rules_hit _ _ _ _
           ("developer", λ path_str _ : string,
              contains "developer" path_str || contains "dev" path_str)).
  - unfold tag_rules. set_solver.
  - change (contains "developer" (lower (docs_prefix +:+ rel))
            || contains "dev" (lower (docs_prefix +:+ rel)) = true).
    rewrite (contains_below_docs "dev") by done. apply orb_true_r.
Qed.

(** ** The curated table *)

(** A property of every entry of [METADATA_MAP] is checked entry by
    entry. *)
Lemma curated_forall (P : string → Metadata → Prop) :
  Forall (λ ke, P ke.1 ke.2) (map_to_list METADATA_MAP) →
  ∀ k entry, METADATA_MAP !! k = Some entry → P k entry.
Proof.
  intros HF k entry Hk. rewrite Forall_forall in HF.
  apply (HF (k, entry)). by apply elem_of_map_to_list.
Qed.

Ltac each_curated_entry :=
  apply curated_forall; vm_compute map_to_list; repeat apply Forall_cons_2;
  [..|apply Forall_nil_2]; cbn [fst snd].

(** The key of a curated entry is what [relative_path] makes of the path
    of the file below the root. *)
Lemma relative_path_curated (k : string) (entry : Metadata) :
  METADATA_MAP !! k = Some entry → relative_path (docs_prefix +:+ k) = k.
Proof. revert k entry. each_curated_entry; by vm_compute. Qed.

Lemma curated_tags_NoDup (k : string) (entry : Metadata) :
  METADATA_MAP !! k = Some entry →
  NoDup (tags entry) ∧ (2 <= length (tags entry))%nat.
Proof.
  revert k entry. each_curated_entry;
    (split; [apply (bool_decide_unpack (NoDup _)); by vm_compute | simpl; lia]).
Qed.

Lemma resolve_curated (filepath content : string) (entry : Metadata) :
  METADATA_MAP !! relative_path filepath = Some entry →
  resolve_metadata filepath content = entry.
Proof. intros H. unfold resolve_metadata. rewrite H. by destruct entry. Qed.

Lemma resolve_heuristic (filepath content : string) :
  METADATA_MAP !! relative_path filepath = None →
  resolve_metadata filepath content =
    let title := heuristic_title filepath content in
    {| title := title;
       description := heuristic_description title content;
       category := infer_category filepath;
       tags := infer_tags filepath (Some title);
       difficulty := infer_difficulty filepath |}.
Proof. intros H. unfold resolve_metadata. by rewrite H. Qed.

Lemma infer_tags_below_docs (rel : string) (title : option string) :
  "user" ∈ infer_tags (docs_prefix +:+ rel) title ∧
  "developer" ∈ infer_tags (docs_prefix +:+ rel) title ∧
  (2 <= length (infer_tags (docs_prefix +:+ rel) title))%nat.
Proof.
  pose proof (user_in_tags_below_docs rel title) as Hu.
  pose proof (developer_in_tags_below_docs rel title) as Hd.
  apply (ensure_two_mono _ _) in Hu. apply (ensure_two_mono _ _) in Hd.
  unfold infer_tags. rewrite !sorted_elem, sorted_length.
  split_and!; [done..|]. by apply (two_distinct_size _ "user" "developer").
Qed.

Lemma infer_difficulty_below_docs (rel : string) :
  infer_difficulty (docs_prefix +:+ rel) = Some "beginner".
Proof.
  unfold infer_difficulty. by rewrite (contains_below_docs "user").
Qed.

(** ** Tags of the files of a run *)

(** Claim C1, as it holds on the code.  For a file below the documentation
    root, the tags that are rendered have no duplicate and are at least
    two; when the file has no curated entry they are sorted as well.  (The
    tags of a curated entry are rendered in the order the table stores
    them.) *)
Theorem tags_of_processed_file (rel content : string) :
  NoDup (tags (resolve_metadata (docs_prefix +:+ rel) content)) ∧
  (2 <= length (tags (resolve_metadata (docs_prefix +:+ rel) content)))%nat ∧
  (METADATA_MAP !! relative_path (docs_prefix +:+ rel) = None →
   StronglySorted String.le (tags (resolve_metadata (docs_prefix +:+ rel) content))).
Proof.
  destruct (METADATA_MAP !! relative_path (docs_prefix +:+ rel)) as [entry|] eqn:Hk.
  - rewrite (resolve_curated _ _ entry Hk).
    destruct (curated_tags_NoDup _ _ Hk) as [Hnd Hlen]. by split_and!.
  - rewrite (resolve_heuristic _ _ Hk). cbn [tags].
    split_and!.
    + apply sorted_NoDup.
    + apply infer_tags_below_docs.
    + intros _. apply sorted_Sorted.
Qed.

Lemma tags_of_processed_file_witness :
  StronglySorted String.le
    (tags (resolve_metadata (docs_prefix +:+ "guides/setup.md") ("# Setup" +:+ nl))).
Proof.
  destruct (tags_of_processed_file "guides/setup.md" ("# Setup" +:+ nl)) as (_ & _ & Hs).
  apply Hs. vm_compute. reflexivity.
Defined.

(** Claim C1 as stated fails on a curated file: the tags of
    [adr/002-three-tier-hierarchy.md] are rendered as stored, [nostr]
    before [channels]. *)
Lemma curated_tags_not_sorted :
  tags (resolve_metadata (docs_prefix +:+ "adr/002-three-tier-hierarchy.md") EmptyString)
    = ["adr"; "architecture"; "nostr"; "channels"; "design"] ∧
  ¬ Sorted String.le
      (tags (resolve_metadata (docs_prefix +:+ "adr/002-three-tier-hierarchy.md")
               EmptyString)).
Proof.
  split; [by vm_compute|].
  intros H. apply (bool_decide_pack _) in H. vm_compute in H. done.
Qed.

(** Claim C3.  The root holds [devuser], so the lowercased path of every
    file below it holds [user] and [dev]: a file without a curated entry
    gets the tags [user] and [developer] and the difficulty [beginner]. *)
Theorem heuristic_file_user_developer_beginner (rel content : string) :
  METADATA_MAP !! relative_path (docs_prefix +:+ rel) = None →
  contains "user" (lower (docs_prefix +:+ rel)) = true ∧
  contains "dev" (lower (docs_prefix +:+ rel)) = true ∧
  "user" ∈ tags (resolve_metadata (docs_prefix +:+ rel) content) ∧
  "developer" ∈ tags (resolve_metadata (docs_prefix +:+ rel) content) ∧
  difficulty (resolve_metadata (docs_prefix +:+ rel) content) = Some "beginner".
Proof.
  intros Hk. rewrite (resolve_heuristic _ _ Hk). cbn [tags difficulty].
  split_and!.
  - by apply contains_below_docs.
  - by apply contains_below_docs.
  - apply infer_tags_below_docs.
  - apply infer_tags_below_docs.
  - apply infer_difficulty_below_docs.
Qed.

Lemma heuristic_file_user_developer_beginner_witness :
  "user" ∈ tags (resolve_metadata (docs_prefix +:+ "relay/storage.md") EmptyString) ∧
  "developer" ∈ tags (resolve_metadata (docs_prefix +:+ "relay/storage.md") EmptyString) ∧
  difficulty (resolve_metadata (docs_prefix +:+ "relay/storage.md") EmptyString)
    = Some "beginner".
Proof.
  refine (proj2 (proj2 (heuristic_file_user_developer_beginner "relay/storage.md"
                          EmptyString _))).
  vm_compute. reflexivity.
Defined.

(** Claim C4.  For a file whose path below the root is a key of the curated
    table, the resolved record is the entry of the table, field by field,
    and the block is rendered from the entry: the content of the file plays
    no part. *)
Theorem curated_entry_verbatim (today k content : string) (entry : Metadata) :
  METADATA_MAP !! k = Some entry →
  resolve_metadata (docs_prefix +:+ k) content = entry ∧
  create_frontmatter today (docs_prefix +:+ k) content = render today entry.
Proof.
  intros Hk. unfold create_frontmatter.
  rewrite (resolve_curated _ _ entry); [done|].
  by rewrite (relative_path_curated k entry Hk).
Qed.

Lemma curated_entry_verbatim_witness :
  resolve_metadata (docs_prefix +:+ "adr/007-sveltekit-ndk-frontend.md") "# Other title"
  = {| title := "ADR-007: SvelteKit + NDK Frontend";
       description := "Decision to use SvelteKit with NDK for frontend development";
       category := "reference";
       tags := ["adr"; "architecture"; "frontend"; "svelte"; "ndk"];
       difficulty := Some "intermediate" |}.
Proof.
  refine (proj1 (curated_entry_verbatim "2026-01-01" "adr/007-sveltekit-ndk-frontend.md"
                   "# Other title" _ _)).
  vm_compute. reflexivity.
Defined.

(** ** The tags of one matching rule *)


Lemma single_hit_guide (filepath : string) (title : option string) :
  matching_rules filepath title = ["guide"] → infer_tags filepath title = ["guide"].
Proof.
  intros Hm. unfold infer_tags. rewrite heuristic_tags_matching, Hm. by vm_compute.
Qed.


(** Claim C2 at [docs/developer/auth-setup.md] below the root, with the
    heading [# Auth Setup]: the path the inference sees holds [devuser], so
    the category is [tutorial] and the difficulty [beginner].  On the path
    below the root alone the same functions give [reference] and
    [intermediate]. *)
Theorem auth_setup_resolved :
  resolve_metadata (docs_prefix +:+ "developer/auth-setup.md") ("# Auth Setup" +:+ nl)
  = {| title := "Auth Setup";
       description := "Auth Setup documentation";
       category := "tutorial";
       tags := ["authentication"; "developer"; "user"];
       difficulty := Some "beginner" |} ∧
  infer_category "developer/auth-setup.md" = "reference" ∧
  infer_difficulty "developer/auth-setup.md" = Some "intermediate".
Proof. split_and!; by vm_compute. Qed.

(** ** The first line of a file *)

Lemma rstrip_app_space (y : string) (c : ascii) :
  is_space c = true → rstrip (y +:+ str1 c) = rstrip y.
Proof.
  intros Hc. induction y as [|a y IH].
  - rewrite app_empty_l. simpl. by rewrite Hc.
  - rewrite app_cons. simpl. by rewrite IH.
Qed.

Lemma strip_app_space (x : string) (c : ascii) :
  is_space c = true → strip (x +:+ str1 c) = strip x.
Proof.
  intros Hc. unfold strip. induction x as [|a x IH].
  - rewrite app_empty_l. simpl. by rewrite Hc.
  - rewrite app_cons. simpl. destruct (is_space a); [done|].
    rewrite <- app_cons. by apply rstrip_app_space.
Qed.

(** [readline] hands over the first line, with its line break read as a
    newline when the file has one. *)
Lemma readline_first_line (stored : string) :
  readline (universal_newlines stored) = first_line stored ∨
  readline (universal_newlines stored) = first_line stored +:+ nl.
Proof.
  induction stored as [|c s IH]; [by left|].
  destruct (decide (c = CR)) as [->|Hcr]; [by right|].
  destruct (decide (c = LF)) as [->|Hlf]; [by right|].
  cbn [universal_newlines first_line].
  rewrite (decide_False (P := c = CR)) by done.
  rewrite (decide_False (P := c = LF ∨ c = CR)) by (intros [?|?]; done).
  cbn [readline]. rewrite (decide_False (P := c = LF)) by done.
  destruct IH as [-> | ->]; [by left|by right].
Qed.

(** The test of [has_frontmatter], in terms of the first line. *)
Lemma starts_with_frontmatter_first_line (stored : string) :
  starts_with_frontmatter stored = bool_decide (strip (first_line stored) = delimiter).
Proof.
  unfold starts_with_frontmatter.
  destruct (readline_first_line stored) as [-> | ->]; [done|].
  change nl with (str1 LF). by rewrite strip_app_space.
Qed.

Lemma delimiter_line_starts_with_frontmatter (stored : string) :
  first_line stored = delimiter → starts_with_frontmatter stored = true.
Proof.
  intros H. rewrite starts_with_frontmatter_first_line, H. reflexivity.
Qed.

Lemma render_head (today : string) (meta : Metadata) :
  ∃ rest, render today meta = delimiter +:+ nl +:+ rest.
Proof. eexists. unfold render. reflexivity. Qed.

(** A file the tool has written starts with front matter. *)
Lemma written_starts_with_frontmatter (today filepath stored : string) :
  starts_with_frontmatter (with_frontmatter today filepath stored) = true.
Proof.
  unfold with_frontmatter, create_frontmatter.
  destruct (render_head today (resolve_metadata filepath (universal_newlines stored)))
    as [rest ->].
  reflexivity.
Qed.

(** The first line of a file the tool has written is the delimiter. *)
Lemma written_first_line (today filepath stored : string) :
  first_line (with_frontmatter today filepath stored) = delimiter.
Proof.
  unfold with_frontmatter, create_frontmatter.
  destruct (render_head today (resolve_metadata filepath (universal_newlines stored)))
    as [rest ->].
  reflexivity.
Qed.

Lemma processed_starts_with_frontmatter (today filepath stored : string) :
  starts_with_frontmatter (processed today filepath stored) = true.
Proof.
  unfold processed. destruct (starts_with_frontmatter stored) eqn:H; [done|].
  apply written_starts_with_frontmatter.
Qed.

Lemma processed_skip (today filepath stored : string) :
  starts_with_frontmatter stored = true → processed today filepath stored = stored.
Proof. intros H. unfold processed. by rewrite H. Qed.

(** ** Paths below the root *)

Lemma is_prefix_split (a s : string) : is_prefix a s = true → ∃ r, s = a +:+ r.
Proof.
  revert s. induction a as [|x a IH]; intros s H.
  - by exists s.
  - destruct s as [|y s]; [done|]. simpl in H.
    destruct (decide (x = y)) as [->|]; [|done].
    destruct (IH s H) as [r ->]. by exists r.
Qed.

Lemma is_doc_below_docs (p : string) : is_doc p = true → ∃ rel, p = docs_prefix +:+ rel.
Proof.
  unfold is_doc. intros [H _]%andb_true_iff. by apply is_prefix_split.
Qed.

Lemma relative_to_docs_below (rel : string) : relative_to_docs (docs_prefix +:+ rel) = rel.
Proof. reflexivity. Qed.

Lemma elem_of_rglob_md (fs : gmap string string) (p : string) :
  p ∈ rglob_md fs ↔ is_doc p = true ∧ is_Some (fs !! p).
Proof.
  unfold rglob_md.
  rewrite merge_sort_Permutation, list_elem_of_filter, elem_of_elements, elem_of_dom.
  tauto.
Qed.

Lemma NoDup_rglob_md (fs : gmap string string) : NoDup (rglob_md fs).
Proof.
  unfold rglob_md. rewrite merge_sort_Permutation. apply NoDup_filter, NoDup_elements.
Qed.

(** ** One run *)

Section run.
Variable today : string.

Lemma add_frontmatter_to_file_skip (fs : gmap string string) (p stored : string) :
  fs !! p = Some stored → starts_with_frontmatter stored = true →
  add_frontmatter_to_file today p fs = Some (false, fs).
Proof.
  intros Hp Hs. unfold add_frontmatter_to_file, has_frontmatter.
  rewrite Hp. simpl. by rewrite Hs.
Qed.

Lemma add_frontmatter_to_file_write (fs : gmap string string) (p stored : string) :
  fs !! p = Some stored → starts_with_frontmatter stored = false →
  add_frontmatter_to_file today p fs
  = Some (true, <[p := with_frontmatter today p stored]> fs).
Proof.
  intros Hp Hs. unfold add_frontmatter_to_file, has_frontmatter.
  rewrite Hp. simpl. by rewrite Hs.
Qed.

(** The loop over distinct, existing files: it ends, every listed file
    holds [processed] of what it held, the other files are untouched, and
    [updated_files] grows by the files that lacked front matter. *)
Lemma main_loop_spec (files : list string) :
  ∀ (fs : gmap string string) (upd : list string),
    NoDup files → (∀ f, f ∈ files → is_Some (fs !! f)) →
    ∃ fs' upd',
      main_loop today files fs upd = Some (fs', upd') ∧
      (∀ p, fs' !! p = if decide (p ∈ files) then processed today p <$> fs !! p
                       else fs !! p) ∧
      (∀ r, r ∈ upd' ↔
            r ∈ upd ∨ ∃ f stored, f ∈ files ∧ fs !! f = Some stored ∧
                        starts_with_frontmatter stored = false ∧
                        r = relative_to_docs f).
Proof.
  induction files as [|f files IH]; intros fs upd Hnd Hex.
  - exists fs, upd. split_and!; [done| |].
    + intros p. rewrite decide_False; [done|apply not_elem_of_nil].
    + intros r. split; [by left|].
      intros [?|(f & c & Hf & _)]; [done|]. by apply elem_of_nil in Hf.
  - apply NoDup_cons in Hnd as [Hf Hnd].
    destruct (Hex f) as [c Hc]; [by left|].
    destruct (starts_with_frontmatter c) eqn:Hs.
    + destruct (IH fs upd Hnd) as (fs' & upd' & Hrun & Hfs & Hupd).
      { intros g Hg. apply Hex. by right. }
      exists fs', upd'. split_and!.
      * simpl. by rewrite (add_frontmatter_to_file_skip fs f c).
      * intros p. rewrite Hfs. destruct (decide (p = f)) as [->|Hne].
        -- rewrite decide_False by done. rewrite decide_True by (by left).
           rewrite Hc. simpl. by rewrite processed_skip.
        -- destruct (decide (p ∈ files)) as [Hin|Hin].
           ++ rewrite decide_True; [done|by right].
           ++ rewrite decide_False; [done|].
              intros [?|?]%elem_of_cons; done.
      * intros r. rewrite Hupd. split.
        -- intros [?|(g & d & Hg & Hd & Hsd & ->)]; [by left|].
           right. exists g, d. split_and!; [by right|done..].
        -- intros [?|(g & d & Hg & Hd & Hsd & ->)]; [by left|].
           apply elem_of_cons in Hg as [->|Hg]; [congruence|].
           right. by exists g, d.
    + destruct (IH (<[f := with_frontmatter today f c]> fs)
                  (upd ++ [relative_to_docs f])%list Hnd)
        as (fs' & upd' & Hrun & Hfs & Hupd).
      { intros g Hg. destruct (decide (g = f)) as [->|Hne]; [done|].
        rewrite lookup_insert_ne by done. apply Hex. by right. }
      exists fs', upd'. split_and!.
      * simpl. by rewrite (add_frontmatter_to_file_write fs f c).
      * intros p. rewrite Hfs. destruct (decide (p = f)) as [->|Hne].
        -- rewrite decide_False by done. rewrite decide_True by (by left).
           rewrite lookup_insert_eq, Hc. simpl. unfold processed. by rewrite Hs.
        -- rewrite lookup_insert_ne by done.
           destruct (decide (p ∈ files)) as [Hin|Hin].
           ++ rewrite decide_True; [done|by right].
           ++ rewrite decide_False; [done|].
              intros [?|?]%elem_of_cons; done.
      * intros r. rewrite Hupd, elem_of_app, list_elem_of_singleton. split.
        -- intros [[?| ->]|(g & d & Hg & Hd & Hsd & ->)].
           ++ by left.
           ++ right. exists f, c. split_and!; [by left|done..].
           ++ right. exists g, d.
              assert (g ≠ f) by (intros ->; done).
              rewrite lookup_insert_ne in Hd by done.
              split_and!; [by right|done..].
        -- intros [?|(g & d & Hg & Hd & Hsd & ->)]; [by left; left|].
           apply elem_of_cons in Hg as [->|Hg]; [by left; right|].
           right. exists g, d.
           assert (g ≠ f) by (intros ->; done).
           rewrite lookup_insert_ne by done. done.
Qed.

(** A run ends.  A Markdown file below the root holds [processed] of what
    it held, any other file is untouched, and [updated_files] lists the
    Markdown files below the root that lacked front matter. *)
Lemma main_spec (fs : gmap string string) :
  ∃ fs' upd,
    main today fs = Some (fs', upd) ∧
    (∀ p, fs' !! p = if is_doc p then processed today p <$> fs !! p else fs !! p) ∧
    (∀ r, r ∈ upd ↔
          ∃ f stored, is_doc f = true ∧ fs !! f = Some stored ∧
            starts_with_frontmatter stored = false ∧ r = relative_to_docs f).
Proof.
  destruct (main_loop_spec (rglob_md fs) fs [] (NoDup_rglob_md fs))
    as (fs' & upd & Hrun & Hfs & Hupd).
  { intros f Hf. by apply elem_of_rglob_md in Hf as [_ ?]. }
  exists fs', upd. split_and!; [done| |].
  - intros p. rewrite Hfs. destruct (decide (p ∈ rglob_md fs)) as [Hin|Hin].
    + apply elem_of_rglob_md in Hin as [-> _]. done.
    + destruct (is_doc p) eqn:Hd; [|done].
      destruct (fs !! p) eqn:Hp; [|done].
      exfalso. apply Hin. apply elem_of_rglob_md. by rewrite Hp.
  - intros r. rewrite Hupd. split.
    + intros [Hr|(f & c & Hf & Hc & Hs & ->)]; [by apply elem_of_nil in Hr|].
      apply elem_of_rglob_md in Hf as [Hd _]. by exists f, c.
    + intros (f & c & Hd & Hc & Hs & ->). right. exists f, c.
      split_and!; [|done..]. apply elem_of_rglob_md. by rewrite Hc.
Qed.

End run.

(** ** Files with front matter, and a second run *)

Lemma universal_newlines_no_CR (stored : string) :
  contains (str1 CR) stored = false → universal_newlines stored = stored.
Proof.
  induction stored as [|c s IH]; [done|].
  intros H. cbn [contains] in H. apply orb_false_iff in H as [Hc Hs].
  cbn [universal_newlines].
  destruct (decide (c = CR)) as [->|Hne]; [done|]. by rewrite IH.
Qed.

(** Claim C5.  A file whose first line is the delimiter is skipped by
    [add_frontmatter_to_file] whatever the other files hold; a run leaves
    its characters as they were and does not list it in [updated_files]. *)
Theorem delimited_file_unchanged (today : string) (fs : gmap string string)
    (p stored : string) :
  fs !! p = Some stored → first_line stored = delimiter →
  add_frontmatter_to_file today p fs = Some (false, fs) ∧
  ∃ fs' upd,
    main today fs = Some (fs', upd) ∧
    fs' !! p = Some stored ∧
    (∀ rel, p = docs_prefix +:+ rel → rel ∉ upd).
Proof.
  intros Hp Hl. apply delimiter_line_starts_with_frontmatter in Hl.
  split; [by apply (add_frontmatter_to_file_skip today fs p stored)|].
  destruct (main_spec today fs) as (fs' & upd & Hrun & Hfs & Hupd).
  exists fs', upd. split_and!; [done| |].
  - rewrite Hfs, Hp. destruct (is_doc p); [|done]. simpl. by rewrite processed_skip.
  - intros rel -> (f & c & Hd & Hc & Hs & Hr)%Hupd.
    apply is_doc_below_docs in Hd as [rel' ->].
    rewrite relative_to_docs_below in Hr. subst rel'. congruence.
Qed.

Lemma delimited_file_unchanged_witness :
  ∃ fs' upd,
    main "2026-01-01"
      {[ docs_prefix +:+ "a.md" := "---" +:+ nl +:+ "title: A" +:+ nl +:+ "---" +:+ nl ]}
    = Some (fs', upd) ∧
    fs' !! (docs_prefix +:+ "a.md")
    = Some ("---" +:+ nl +:+ "title: A" +:+ nl +:+ "---" +:+ nl) ∧
    (∀ rel, docs_prefix +:+ "a.md" = docs_prefix +:+ rel → rel ∉ upd).
Proof.
  refine (proj2 (delimited_file_unchanged "2026-01-01" _ (docs_prefix +:+ "a.md")
                   ("---" +:+ nl +:+ "title: A" +:+ nl +:+ "---" +:+ nl) _ _)).
  - vm_compute. reflexivity.
  - vm_compute. reflexivity.
Defined.

(** Claim C6.  A run ends, and a second run over what it leaves, on any
    day, ends too, rewrites no file and lists no updated file: every file
    the first run has updated has the delimiter as its first line, and
    every Markdown file below the root then passes the test for front
    matter. *)
Theorem second_run_changes_nothing (day1 day2 : string) (fs : gmap string string) :
  ∃ fs1 upd1,
    main day1 fs = Some (fs1, upd1) ∧
    main day2 fs1 = Some (fs1, []) ∧
    (∀ rel, rel ∈ upd1 →
       ∃ stored, fs1 !! (docs_prefix +:+ rel) = Some stored ∧
                 first_line stored = delimiter) ∧
    (∀ p stored, is_doc p = true → fs1 !! p = Some stored →
       strip (first_line stored) = delimiter).
Proof.
  destruct (main_spec day1 fs) as (fs1 & upd1 & Hrun1 & Hfs1 & Hupd1).
  assert (Hfm : ∀ p stored, is_doc p = true → fs1 !! p = Some stored →
                  starts_with_frontmatter stored = true).
  { intros p stored Hd Hp. rewrite Hfs1, Hd in Hp.
    destruct (fs !! p) as [c|]; [|done]. simpl in Hp. injection Hp as <-.
    apply processed_starts_with_frontmatter. }
  destruct (main_spec day2 fs1) as (fs2 & upd2 & Hrun2 & Hfs2 & Hupd2).
  assert (fs2 = fs1) as ->.
  { apply map_eq. intros p. rewrite Hfs2.
    destruct (is_doc p) eqn:Hd; [|done].
    destruct (fs1 !! p) as [c|] eqn:Hp; [|done].
    simpl. rewrite processed_skip; [done|]. by apply (Hfm p). }
  assert (upd2 = []) as ->.
  { apply elem_of_nil_inv. intros r (f & c & Hd & Hc & Hs & _)%Hupd2.
    rewrite (Hfm f c Hd Hc) in Hs. done. }
  exists fs1, upd1. split_and!; [done..| |].
  - intros rel (f & c & Hd & Hc & Hs & ->)%Hupd1.
    destruct (is_doc_below_docs f Hd) as [rel ->].
    rewrite relative_to_docs_below, Hfs1, Hd, Hc. simpl.
    unfold processed. rewrite Hs. eexists. split; [done|].
    apply written_first_line.
  - intros p stored Hd Hp. specialize (Hfm p stored Hd Hp).
    rewrite starts_with_frontmatter_first_line in Hfm.
    by apply bool_decide_eq_true in Hfm.
Qed.

(** Claim C7, as it holds on the code.  A Markdown file below the root is
    skipped exactly when its first line, with the white space around it
    stripped, is the delimiter; otherwise it is listed as updated and holds
    the rendered front matter followed by its content as text mode reads
    it, which is the content itself when it has no carriage return. *)
Theorem skipped_iff_stripped_delimiter (today : string) (fs : gmap string string)
    (rel stored : string) :
  is_doc (docs_prefix +:+ rel) = true →
  fs !! (docs_prefix +:+ rel) = Some stored →
  ∃ fs' upd,
    main today fs = Some (fs', upd) ∧
    (strip (first_line stored) = delimiter ↔ rel ∉ upd) ∧
    (strip (first_line stored) = delimiter →
       fs' !! (docs_prefix +:+ rel) = Some stored) ∧
    (strip (first_line stored) ≠ delimiter →
       fs' !! (docs_prefix +:+ rel)
       = Some (create_frontmatter today (docs_prefix +:+ rel) (universal_newlines stored)
               +:+ universal_newlines stored)) ∧
    (contains (str1 CR) stored = false → universal_newlines stored = stored).
Proof.
  intros Hd Hp.
  destruct (main_spec today fs) as (fs' & upd & Hrun & Hfs & Hupd).
  exists fs', upd.
  pose proof (starts_with_frontmatter_first_line stored) as Hs.
  assert (Hin : rel ∈ upd ↔ starts_with_frontmatter stored = false).
  { rewrite Hupd. split.
    - intros (f & c & Hf & Hc & Hsc & Hr).
      apply is_doc_below_docs in Hf as [rel' ->].
      rewrite relative_to_docs_below in Hr. subst rel'. congruence.
    - intros Hsf. exists (docs_prefix +:+ rel), stored.
      by rewrite relative_to_docs_below. }
  specialize (Hfs (docs_prefix +:+ rel)). rewrite Hd, Hp in Hfs. simpl in Hfs.
  unfold processed in Hfs.
  split_and!; [done| | | |apply universal_newlines_no_CR].
  - rewrite Hin, Hs. split.
    + intros H. rewrite bool_decide_eq_true_2; done.
    + intros H. destruct (decide (strip (first_line stored) = delimiter)); [done|].
      rewrite bool_decide_eq_false_2 in H; done.
  - intros H. rewrite Hs, bool_decide_eq_true_2 in Hfs; done.
  - intros H. rewrite Hs, bool_decide_eq_false_2 in Hfs; done.
Qed.

Lemma skipped_iff_stripped_delimiter_witness :
  ∃ fs' upd,
    main "2026-01-01" {[ docs_prefix +:+ "b.md" := "# B" +:+ nl ]} = Some (fs', upd) ∧
    "b.md" ∈ upd ∧
    fs' !! (docs_prefix +:+ "b.md")
    = Some (create_frontmatter "2026-01-01" (docs_prefix +:+ "b.md") ("# B" +:+ nl)
            +:+ "# B" +:+ nl).
Proof.
  destruct (skipped_iff_stripped_delimiter "2026-01-01"
              {[ docs_prefix +:+ "b.md" := "# B" +:+ nl ]} "b.md" ("# B" +:+ nl))
    as (fs' & upd & Hrun & Hskip & _ & Hwrite & _).
  - vm_compute. reflexivity.
  - vm_compute. reflexivity.
  - exists fs', upd. split_and!; [exact Hrun| |].
    + destruct (decide ("b.md" ∈ upd)) as [Hin|Hout]; [exact Hin|].
      apply Hskip in Hout. vm_compute in Hout. discriminate Hout.
    + apply Hwrite. vm_compute. discriminate.
Defined.

(** Claim C7 as stated fails on a first line that is the delimiter after a
    space: the line is not the delimiter, yet the file is skipped, neither
    rewritten nor listed. *)
Lemma padded_delimiter_skipped :
  first_line (" ---" +:+ nl +:+ "body" +:+ nl) ≠ delimiter ∧
  main "2026-01-01" {[ docs_prefix +:+ "notes.md" := " ---" +:+ nl +:+ "body" +:+ nl ]}
  = Some ({[ docs_prefix +:+ "notes.md" := " ---" +:+ nl +:+ "body" +:+ nl ]}, []).
Proof. split; [by vm_compute|]. vm_compute. reflexivity. Qed.

(** ** Title and description of a file without a curated entry *)

Lemma heuristic_description_bound (title content : string) :
  (String.length (heuristic_description title content) <= 200)%nat ∨
  heuristic_description title content = title +:+ " documentation".
Proof.
  unfold heuristic_description.
  destruct (Re.search Re.MS desc_re content); [left|by right].
  apply take_chars_length.
Qed.

(** ** The heading pattern, line by line *)

Lemma length_app (a b : string) :
  String.length (a +:+ b) = (String.length a + String.length b)%nat.
Proof. induction a as [|c a IH]; [done|]. rewrite app_cons. simpl. by rewrite IH. Qed.

Lemma take_chars_app (a b : string) : take_chars (String.length a) (a +:+ b) = a.
Proof. induction a as [|c a IH]; [by destruct b|]. rewrite app_cons. simpl. by rewrite IH. Qed.

Lemma consumed_app (w rest : string) : consumed (w +:+ rest) rest = w.
Proof.
  unfold consumed. rewrite length_app.
  replace (String.length w + String.length rest - String.length rest)%nat
    with (String.length w) by lia.
  apply take_chars_app.
Qed.

Lemma all_chars_app (f : ascii → bool) (a b : string) :
  all_chars f (a +:+ b) = all_chars f a && all_chars f b.
Proof.
  induction a as [|c a IH]; [done|]. rewrite app_cons. simpl.
  by rewrite IH, andb_assoc.
Qed.

(** A greedy quantifier over a run [w] of characters of its item, followed
    by a text that does not go on with the item: when the rest of the
    pattern matches right after [w], that is the match. *)
Lemma rep_greedy_span {R} (fl : flags) (min : nat) (a : atom) (cap : option string)
    (k : option ascii → string → option string → option R) (w rest : string) (r : R) :
  ∀ (n : nat) (prev : option ascii),
    all_chars (atom_ok fl a) w = true →
    match rest with String c _ => atom_ok fl a c = false | EmptyString => True end →
    (min <= n + String.length w)%nat →
    k (last_char prev w) rest cap = Some r →
    rep fl true min a cap k n prev (w +:+ rest) = Some r.
Proof.
  induction w as [|c w IH]; intros n prev Hw Hrest Hmin Hk.
  - rewrite app_empty_l. simpl in Hmin, Hk.
    assert (Hle : (min <=? n)%nat = true) by (apply Nat.leb_le; lia).
    destruct rest as [|d rest]; simpl; [by rewrite Hle|].
    by rewrite Hrest, Hle.
  - rewrite app_cons. simpl in Hw. apply andb_true_iff in Hw as [Hc Hw].
    cbn [rep]. rewrite Hc.
    rewrite (IH (S n) (Some c)); [done..| |done].
    simpl in Hmin. lia.
Qed.

Lemma heading_no_match_mid_line (prev : option ascii) (s : string) :
  at_bol Re.M prev = false → match_here Re.M heading_re prev s = None.
Proof. intros H. unfold match_here, heading_re. cbn [run]. by rewrite H. Qed.

(** At the start of a line the pattern needs [#] and a white-space
    character. *)
Lemma heading_no_match_line_start (prev : option ascii) (s : string) :
  match s with
  | String a (String c _) => a ≠ "#"%char ∨ is_space c = false
  | _ => True
  end →
  match_here Re.M heading_re prev s = None.
Proof.
  intros H. unfold match_here, heading_re. cbn [run].
  destruct (at_bol Re.M prev); [|done].
  destruct s as [|a s]; [done|].
  cbn [atom_ok]. destruct (decide (a = "#"%char)) as [->|Ha].
  - rewrite bool_decide_eq_true_2 by done.
    destruct s as [|c s]; [done|].
    destruct H as [H|H]; [done|]. cbn [rep atom_ok]. by rewrite H.
  - by rewrite bool_decide_eq_false_2.
Qed.

(** A line [#], white space [ws], text [body]: the match at its start has
    [body] as group 1. *)
Lemma heading_match_line (prev : option ascii) (ws body tail : string) :
  at_bol Re.M prev = true →
  ws ≠ EmptyString → all_chars is_space ws = true →
  match body with String a _ => is_space a = false | EmptyString => False end →
  all_chars not_LF body = true →
  match tail with String c _ => c = LF | EmptyString => True end →
  ∃ w, match_here Re.M heading_re prev (String "#" (ws +:+ body +:+ tail))
       = Some {| whole := w; group1 := Some body; after := tail |}.
Proof.
  intros Hbol Hws Hsp Hbody Hnl Htail. eexists.
  unfold match_here, heading_re. cbn [run]. rewrite Hbol. cbn [atom_ok].
  rewrite bool_decide_eq_true_2 by done.
  apply rep_greedy_span.
  - done.
  - destruct body as [|a body]; [done|]. by rewrite app_cons.
  - destruct ws; [done|]. simpl. lia.
  - cbn [run]. apply rep_greedy_span.
    + done.
    + destruct tail as [|c tail]; [done|]. subst c. reflexivity.
    + destruct body; [done|]. simpl. lia.
    + cbn [run]. rewrite consumed_app.
      assert (Heol : at_eol Re.M tail = true).
      { destruct tail as [|c [|d tail]]; [done|..]; subst c; reflexivity. }
      rewrite Heol. reflexivity.
Qed.

Lemma line_rest_split (text : string) : text = line_of text +:+ rest_of_line text.
Proof.
  induction text as [|c t IH]; [done|]. simpl.
  destruct (decide (c = LF)); [done|]. rewrite app_cons. by rewrite <- IH.
Qed.

Lemma line_of_not_LF (text : string) : all_chars not_LF (line_of text) = true.
Proof.
  induction text as [|c t IH]; [done|]. simpl.
  destruct (decide (c = LF)) as [|Hc]; [done|]. simpl. rewrite IH.
  unfold not_LF. by rewrite bool_decide_eq_false_2.
Qed.

Lemma rest_of_line_head (text : string) :
  match rest_of_line text with String c _ => c = LF | EmptyString => True end.
Proof.
  induction text as [|c t IH]; [done|]. simpl. by destruct (decide (c = LF)).
Qed.

Lemma lines_line_of (text : string) : ∃ ls, lines text = line_of text :: ls.
Proof.
  induction text as [|c t [ls IH]]; [by eexists|]. simpl.
  destruct (decide (c = LF)); [by eexists|]. rewrite IH. by eexists.
Qed.

Lemma lstrip_split (x : string) :
  ∃ ws, x = ws +:+ lstrip x ∧ all_chars is_space ws = true.
Proof.
  induction x as [|c x (ws & Hx & Hws)]; [by exists EmptyString|]. simpl.
  destruct (is_space c) eqn:Hc.
  - exists (String c ws). rewrite app_cons, <- Hx. simpl. by rewrite Hc, Hws.
  - by exists EmptyString.
Qed.

Lemma lstrip_head (x : string) :
  match lstrip x with String a _ => is_space a = false | EmptyString => True end.
Proof.
  induction x as [|c x IH]; [done|]. simpl. destruct (is_space c) eqn:Hc; [done|].
  done.
Qed.

Lemma lstrip_idem (x : string) : lstrip (lstrip x) = lstrip x.
Proof.
  induction x as [|c x IH]; [done|]. simpl. destruct (is_space c) eqn:Hc; [done|].
  simpl. by rewrite Hc.
Qed.

Lemma heading_text_nonempty (line t : string) :
  heading_text line = Some t → t ≠ EmptyString.
Proof.
  unfold heading_text. intros H.
  repeat (case_match; simplify_eq); done.
Qed.

Lemma first_heading_nonempty (ls : list string) (t : string) :
  first_heading ls = Some t → t ≠ EmptyString.
Proof.
  induction ls as [|l ls IH]; [done|]. simpl.
  destruct (heading_text l) eqn:Hl; [|done].
  intros [= <-]. by eapply heading_text_nonempty.
Qed.

Lemma app_assoc_s (a b c : string) : (a +:+ b) +:+ c = a +:+ (b +:+ c).
Proof. induction a as [|x a IH]; [done|]. rewrite !app_cons. by rewrite IH. Qed.

Lemma lines_LF (t : string) : lines (String LF t) = EmptyString :: lines t.
Proof. reflexivity. Qed.

Lemma lines_other (c : ascii) (t : string) :
  c ≠ LF → lines (String c t) = String c (line_of t) :: tail (lines t).
Proof.
  intros Hc. cbn [lines]. rewrite decide_False by done.
  destruct (lines_line_of t) as [ls ->]. reflexivity.
Qed.

Lemma strip_space_cons (c : ascii) (x : string) :
  is_space c = true → strip (String c x) = strip x.
Proof. intros Hc. unfold strip. simpl. by rewrite Hc. Qed.

Lemma strip_lstrip (x : string) : strip (lstrip x) = strip x.
Proof. unfold strip. by rewrite lstrip_idem. Qed.

(** The search for the heading pattern over a text without bare headings
    finds the first heading line: from the start of a line over the lines
    of the text, from within a line over the lines after it. *)
Lemma heading_search_lines (s : string) :
  (∀ prev, at_bol Re.M prev = true →
     Forall (λ l, bare_heading l = false) (lines s) →
     title_of_match (search_from Re.M heading_re prev s) = first_heading (lines s)) ∧
  (∀ prev, at_bol Re.M prev = false →
     Forall (λ l, bare_heading l = false) (tail (lines s)) →
     title_of_match (search_from Re.M heading_re prev s)
     = first_heading (tail (lines s))).
Proof.
  induction s as [|c t [IH1 IH2]].
  - split; intros prev Hbol _; cbn [search_from].
    + by rewrite heading_no_match_line_start.
    + by rewrite heading_no_match_mid_line.
  - split; intros prev Hbol Hbare; cbn [search_from].
    + destruct (decide (c = LF)) as [->|Hc].
      * rewrite lines_LF in *. apply Forall_cons in Hbare as [_ Hbare].
        rewrite heading_no_match_line_start by (by destruct t; [|left]).
        by rewrite IH1.
      * rewrite lines_other in * by done.
        apply Forall_cons in Hbare as [Hl Hbare].
        assert (Hmid : at_bol Re.M (Some c) = false).
        { simpl. by rewrite bool_decide_eq_false_2. }
        cbn [first_heading].
        destruct (heading_text (String c (line_of t))) as [tt|] eqn:Hh.
        -- (* the line is a heading with a text *)
           unfold heading_text in Hh.
           destruct (decide (c = "#"%char)) as [->|Hne];
             [|by repeat (case_match; simplify_eq)].
           destruct (line_of t) as [|c2 rest] eqn:Hline; [done|].
           destruct (is_space c2) eqn:Hc2; [|done].
           assert (Htt : strip rest = tt ∧ strip rest ≠ EmptyString).
           { destruct (strip rest); [done|]. by injection Hh as <-. }
           destruct Htt as [<- Hne].
           destruct (lstrip_split rest) as (ws & Hrest & Hws).
           pose proof (line_of_not_LF t) as Hnl. rewrite Hline in Hnl.
           simpl in Hnl. apply andb_true_iff in Hnl as [_ Hnl].
           rewrite Hrest, all_chars_app in Hnl. apply andb_true_iff in Hnl as [_ Hnl].
           destruct (heading_match_line prev (String c2 ws) (lstrip rest) (rest_of_line t))
             as [w Hm]; [done|done|by simpl; rewrite Hc2| | |apply rest_of_line_head|].
           { pose proof (lstrip_head rest) as Hhd.
             destruct (lstrip rest) eqn:Hl'; [|done].
             apply Hne. unfold strip. by rewrite Hl'. }
           { done. }
           rewrite app_cons, <- app_assoc_s, <- Hrest, <- app_cons, <- Hline in Hm.
           rewrite <- line_rest_split in Hm. rewrite Hm. simpl.
           by rewrite strip_lstrip.
        -- (* the line is no heading *)
           rewrite heading_no_match_line_start.
           { by rewrite IH2. }
           destruct t as [|d t']; [done|].
           destruct (decide (c = "#"%char)) as [->|Hne]; [right|by left].
           destruct (is_space d) eqn:Hd; [exfalso|done].
           destruct (decide (d = LF)) as [->|Hd']; [done|].
           cbn [line_of heading_text bare_heading] in Hl, Hh.
           rewrite decide_False in Hl, Hh by done.
           rewrite Hd in Hh. rewrite strip_space_cons in Hl by done.
           destruct (strip (line_of t')); [|done].
           by rewrite bool_decide_eq_true_2 in Hl.
    + rewrite heading_no_match_mid_line by done.
      destruct (decide (c = LF)) as [->|Hc].
      * rewrite lines_LF in *. by apply IH1.
      * rewrite lines_other in * by done. apply IH2; [|done].
        simpl. by rewrite bool_decide_eq_false_2.
Qed.

(** On a content without bare headings, [extract_title_from_heading] is the
    text of the first heading line. *)
Lemma extract_title_first_heading (content : string) :
  Forall (λ l, bare_heading l = false) (lines content) →
  extract_title_from_heading content = first_heading (lines content).
Proof.
  intros H. destruct (heading_search_lines content) as [H1 _].
  specialize (H1 None eq_refl H). unfold title_of_match, Re.search in H1.
  unfold extract_title_from_heading, Re.search.
  by destruct (search_from Re.M heading_re None content).
Qed.

(** When no line of the content is [#] followed by white space alone, the
    title resolved for a file without a curated entry is the title the
    specification states: the text of the first heading line or, without
    one, the base name in title case. *)
Lemma heuristic_title_by_spec (filepath content : string) :
  Forall (λ l, bare_heading l = false) (lines content) →
  heuristic_title filepath content = title_by_spec filepath content.
Proof.
  intros H. unfold heuristic_title, title_by_spec.
  rewrite (extract_title_first_heading content H).
  destruct (first_heading (lines content)) as [t|] eqn:Ht; [|done].
  apply first_heading_nonempty in Ht. by destruct t.
Qed.

(** Claim C8 at [notes.md] with the content [#], newline, [Intro text],
    newline: no line is a level-1 heading with a text, and the title by the
    specification is the base name, [Notes]; the white space of the pattern
    runs over the line break and the title resolved is the line below. *)
Theorem heading_pattern_crosses_line_break :
  extract_title_from_heading ("#" +:+ nl +:+ "Intro text" +:+ nl) = Some "Intro text" ∧
  title (resolve_metadata (docs_prefix +:+ "notes.md") ("#" +:+ nl +:+ "Intro text" +:+ nl))
    = "Intro text" ∧
  first_heading (lines ("#" +:+ nl +:+ "Intro text" +:+ nl)) = None ∧
  title_by_spec (docs_prefix +:+ "notes.md") ("#" +:+ nl +:+ "Intro text" +:+ nl)
    = "Notes".
Proof. split_and!; by vm_compute. Qed.

(** ** The description pattern on a heading followed by a paragraph *)

(** A lazy quantifier over a run [w] of characters of its item: when the
    rest of the pattern fails at every position of [w] and matches right
    after it, that is the match. *)
Lemma rep_lazy_span {R} (fl : flags) (min : nat) (a : atom) (cap : option string)
    (k : option ascii → string → option string → option R) (w rest : string) (r : R) :
  ∀ (n : nat) (prev : option ascii),
    all_chars (atom_ok fl a) w = true →
    fails_within k cap w rest →
    (min <= n + String.length w)%nat →
    k (last_char prev w) rest cap = Some r →
    rep fl false min a cap k n prev (w +:+ rest) = Some r.
Proof.
  induction w as [|c w IH]; intros n prev Hw Hf Hmin Hk.
  - rewrite app_empty_l. simpl in Hmin, Hk.
    assert (Hle : (min <=? n)%nat = true) by (apply Nat.leb_le; lia).
    destruct rest; simpl; by rewrite Hle, Hk.
  - rewrite app_cons. simpl in Hw. apply andb_true_iff in Hw as [Hc Hw].
    destruct Hf as [Hf1 Hf]. cbn [rep].
    rewrite <- app_cons, Hf1, Hc.
    rewrite (IH (S n) (Some c)); [by destruct (min <=? n)%nat|done..| |done].
    simpl in Hmin. lia.
Qed.

Lemma take_chars_exact (n : nat) (s : string) :
  (n <= String.length s)%nat → String.length (take_chars n s) = n.
Proof.
  revert s. induction n as [|n IH]; intros [|c s] H; simpl in *; try lia.
  rewrite IH; lia.
Qed.

Lemma end_re_fails {R} (prev : option ascii) (s : string) (cap : option string)
    (k : option ascii → string → option string → option R) :
  paragraph_end s = false → run Re.MS end_re prev s cap k = None.
Proof.
  unfold paragraph_end, end_re. intros H. apply orb_false_iff in H as [H1 H2].
  cbn [run atom_ok].
  destruct s as [|c1 s]; [done|].
  destruct (decide (c1 = LF)) as [->|Hc1]; [|by rewrite !bool_decide_eq_false_2].
  rewrite !bool_decide_eq_true_2 by done.
  destruct s as [|c2 s]; [done|].
  simpl in H1, H2.
  destruct (decide (c2 = LF)) as [->|Hc2]; [done|].
  rewrite (bool_decide_eq_false_2 (c2 = LF)) by done.
  destruct (decide (c2 = "#"%char)) as [->|Hc2']; [|by rewrite bool_decide_eq_false_2].
  rewrite bool_decide_eq_true_2 by done.
  destruct s as [|c3 s]; [done|].
  destruct (decide (c3 = "#"%char)) as [->|Hc3]; [done|].
  by rewrite bool_decide_eq_false_2.
Qed.

Lemma end_re_matches {R} (prev : option ascii) (s : string) (cap : option string)
    (k : option ascii → string → option string → option R) :
  paragraph_end s = true →
  (∀ prev' s', is_Some (k prev' s' cap)) →
  ∃ prev' s', run Re.MS end_re prev s cap k = k prev' s' cap.
Proof.
  unfold paragraph_end, end_re. intros H Hk. cbn [run atom_ok].
  destruct s as [|c1 s]; [done|].
  destruct (decide (c1 = LF)) as [->|Hc1].
  2:{ simpl in H. rewrite !decide_False in H by done. done. }
  rewrite !bool_decide_eq_true_2 by done.
  destruct s as [|c2 s]; [done|].
  destruct (decide (c2 = LF)) as [->|Hc2].
  - rewrite bool_decide_eq_true_2 by done.
    destruct (Hk (Some LF) s) as [r Hr]. rewrite Hr. by eexists _, _.
  - rewrite (bool_decide_eq_false_2 (c2 = LF)) by done.
    simpl in H. rewrite (decide_False (P := LF = c2)) in H by done.
    destruct (decide (c2 = "#"%char)) as [->|Hc2'].
    2:{ by rewrite (decide_False (P := "#"%char = c2)) in H. }
    rewrite bool_decide_eq_true_2 by done.
    destruct s as [|c3 s]; [done|].
    destruct (decide (c3 = "#"%char)) as [->|Hc3].
    2:{ simpl in H. by rewrite (decide_False (P := "#"%char = c3)) in H. }
    rewrite bool_decide_eq_true_2 by done. by eexists _, _.
Qed.

Lemma all_chars_dotall (w : string) : all_chars (atom_ok Re.MS Dot) w = true.
Proof. induction w as [|c w IH]; [done|]. simpl. exact IH. Qed.

(** Inside a heading line the newlines of the pattern cannot start. *)
Lemma newlines_fail_within {R} (k : option ascii → string → option string → option R)
    (cap : option string) (h rest : string) :
  all_chars not_LF h = true →
  fails_within (λ prev s cap', rep Re.MS true 1 (Lit LF) cap' k 0 prev s) cap h rest.
Proof.
  induction h as [|c h IH]; [done|]. simpl. intros [Hc Hh]%andb_true_iff.
  split; [|by apply IH]. intros prev.
  unfold not_LF in Hc. apply negb_true_iff in Hc. by rewrite Hc.
Qed.

(** Inside the paragraph the end of the pattern cannot match. *)
Lemma end_fails_within {R} (k : option ascii → string → option string → option R)
    (s0 : string) (cap : option string) (a : ascii) (para tail : string) :
  no_end_inside (String a para) tail = true →
  fails_within (λ prev s _, run Re.MS end_re prev s (Some (consumed s0 s)) k)
    cap para tail.
Proof.
  revert a. induction para as [|c para IH]; intros a H; [done|].
  cbn [no_end_inside] in H. apply andb_true_iff in H as [H1 H2].
  split; [|by apply (IH c)]. intros prev. apply end_re_fails.
  by apply negb_true_iff in H1.
Qed.

Lemma search_here (fl : flags) (p : pattern) (s : string) (m : rmatch) :
  match_here fl p None s = Some m → Re.search fl p s = Some m.
Proof.
  intros H. unfold Re.search. destruct s; cbn [search_from]; by rewrite H.
Qed.

(** The second half of the description pattern on a paragraph [para]
    followed by its end: group 1 is the paragraph. *)
Lemma paragraph_captured (s0 : string) (prev : option ascii) (para tail : string) :
  para ≠ EmptyString →
  no_end_inside para tail = true →
  paragraph_end tail = true →
  ∃ w aft,
    run Re.MS (Seq (Group (Rep false 1 Dot)) end_re) prev (para +:+ tail) None (finish s0)
    = Some {| whole := w; group1 := Some para; after := aft |}.
Proof.
  intros Hne Hin Hend. destruct para as [|a para]; [done|].
  destruct (end_re_matches (last_char (Some a) para) tail
              (Some (consumed (String a para +:+ tail) tail)) (finish s0) Hend)
    as (prev' & s' & Hm); [by eexists|].
  eexists _, _. cbn [run]. rewrite app_cons. cbn [rep atom_ok]. simpl orb. cbv iota.
  apply rep_lazy_span.
  - apply all_chars_dotall.
  - by apply (end_fails_within _ _ _ a).
  - lia.
  - rewrite <- app_cons, Hm. unfold finish. rewrite consumed_app. reflexivity.
Qed.

(** The description pattern on a leading heading line, newlines and a
    paragraph followed by its end: group 1 is the paragraph. *)
Lemma desc_after_heading (h nls para tail : string) :
  all_chars not_LF h = true →
  nls ≠ EmptyString → all_chars (λ c, bool_decide (c = LF)) nls = true →
  match para with String a _ => a ≠ LF | EmptyString => False end →
  no_end_inside para tail = true →
  paragraph_end tail = true →
  ∃ w aft,
    Re.search Re.MS desc_re (String "#" (h +:+ nls +:+ para +:+ tail))
    = Some {| whole := w; group1 := Some para; after := aft |}.
Proof.
  intros Hh Hnls Hnl Hpara Hin Hend.
  set (s0 := String "#" (h +:+ nls +:+ para +:+ tail)).
  destruct (paragraph_captured s0 (last_char (last_char (Some "#"%char) h) nls) para tail)
    as (w & aft & Hp); [by destruct para|done..|].
  exists w, aft. apply search_here. unfold match_here, desc_re.
  cbn [run at_bol]. unfold s0 at 1 2. cbn [atom_ok].
  rewrite bool_decide_eq_true_2 by done.
  match goal with
  | |- match ?X with Some r => Some r | None => _ end = Some ?m =>
      enough (HX : X = Some m) by (by rewrite HX)
  end.
  apply rep_lazy_span.
  - apply all_chars_dotall.
  - by apply newlines_fail_within.
  - lia.
  - apply rep_greedy_span.
    + done.
    + destruct para as [|a para]; [done|]. rewrite app_cons. cbn [atom_ok].
      by rewrite bool_decide_eq_false_2.
    + destruct nls; [done|]. simpl. lia.
    + exact Hp.
Qed.

(** The description pattern on a text that starts with a paragraph. *)
Lemma desc_without_heading (para tail : string) :
  match para with
  | String a _ => a ≠ "#"%char
  | EmptyString => False
  end →
  no_end_inside para tail = true →
  paragraph_end tail = true →
  ∃ w aft,
    Re.search Re.MS desc_re (para +:+ tail)
    = Some {| whole := w; group1 := Some para; after := aft |}.
Proof.
  intros Hpara Hin Hend.
  destruct (paragraph_captured (para +:+ tail) None para tail)
    as (w & aft & Hp); [by destruct para|done..|].
  exists w, aft. apply search_here. unfold match_here, desc_re.
  cbn [run at_bol]. destruct para as [|a para]; [done|].
  rewrite app_cons. cbn [atom_ok]. rewrite bool_decide_eq_false_2 by done.
  rewrite <- app_cons. exact Hp.
Qed.

Lemma normalized_length (text : string) :
  (String.length (normalized text) <= 200)%nat ∧
  ((200 <= String.length (Re.sub Re.no_flags spaces_re " " (strip text)))%nat →
   String.length (normalized text) = 200%nat).
Proof.
  unfold normalized. split; [apply take_chars_length|apply take_chars_exact].
Qed.

(** For a content made of a heading line, newlines, and a paragraph
    followed by a blank line or a level-2 heading, the description is the
    paragraph, stripped, with its white space normalized, cut at 200
    characters. *)
Lemma description_of_first_paragraph (title h nls para tail : string) :
  all_chars not_LF h = true →
  nls ≠ EmptyString → all_chars (λ c, bool_decide (c = LF)) nls = true →
  match para with String a _ => a ≠ LF | EmptyString => False end →
  no_end_inside para tail = true →
  paragraph_end tail = true →
  heuristic_description title (String "#" (h +:+ nls +:+ para +:+ tail))
  = normalized para.
Proof.
  intros Hh Hnls Hnl Hpara Hin Hend. unfold heuristic_description.
  destruct (desc_after_heading h nls para tail) as (w & aft & ->); done.
Qed.

(** Claim C9 at [notes.md] with a heading, a blank line and one paragraph
    that ends the file: the paragraph is followed by no blank line and no
    level-2 heading, the pattern then matches without its optional heading
    part, and the description is the heading line itself, neither the
    paragraph nor the title followed by [documentation]. *)
Theorem description_is_heading_line :
  Re.search Re.MS desc_re ("# Title" +:+ nl +:+ nl +:+ "Only paragraph." +:+ nl)
    = Some {| whole := "# Title" +:+ nl +:+ nl;
              group1 := Some "# Title";
              after := "Only paragraph." +:+ nl |} ∧
  resolve_metadata (docs_prefix +:+ "notes.md")
    ("# Title" +:+ nl +:+ nl +:+ "Only paragraph." +:+ nl)
  = {| title := "Title";
       description := "# Title";
       category := "tutorial";
       tags := ["developer"; "user"];
       difficulty := Some "beginner" |}.
Proof. split; by vm_compute. Qed.

(** ** The two patterns on sample documents *)

Example title_of_document :
  heuristic_title (docs_prefix +:+ "relay/storage.md")
    ("Intro" +:+ nl +:+ "## Sub" +:+ nl +:+ "#  Relay storage  " +:+ nl +:+ "text")
  = "Relay storage".
Proof.
  rewrite heuristic_title_by_spec; [reflexivity|].
  apply (bool_decide_unpack (Forall _ _)). by vm_compute.
Qed.

Example description_of_document :
  heuristic_description "Title"
    ("# Title" +:+ nl +:+ nl +:+ "First  para" +:+ nl +:+ "line2" +:+ nl +:+ nl
     +:+ "Second" +:+ nl)
  = "First para line2".
Proof.
  etrans.
  - by apply (description_of_first_paragraph "Title" " Title" (nl +:+ nl)
                ("First  para" +:+ nl +:+ "line2") (nl +:+ nl +:+ "Second" +:+ nl)).
  - reflexivity.
Qed.

Example description_fallback :
  heuristic_description "Auth Setup" ("# Auth Setup" +:+ nl) = "Auth Setup documentation".
Proof. reflexivity. Qed.

(** * Further properties of the functions *)

(** ** The report *)

Example report_two_files :
  report ["b.md"; "a/x.md"]
  = "✓ b.md" +:+ nl +:+ "✓ a/x.md" +:+ nl +:+ nl +:+ nl
    +:+ "Updated 2 files" +:+ nl +:+ nl +:+ "Updated files:" +:+ nl
    +:+ "  - a/x.md" +:+ nl +:+ "  - b.md" +:+ nl.
Proof. by vm_compute. Qed.

(** ** The tags of [infer_tags], for every path and title *)

Lemma matching_rules_elem (filepath : string) (title : option string) (x : string) :
  x ∈ matching_rules filepath title → x ∈ tag_rules.*1.
Proof.
  unfold matching_rules. destruct (path_and_title filepath title) as [p t].
  intros (r & -> & Hr)%list_elem_of_fmap. apply list_elem_of_filter in Hr as [_ Hr].
  apply list_elem_of_fmap. by exists r.
Qed.

Lemma heuristic_tags_elem (filepath : string) (title : option string) (x : string) :
  x ∈ heuristic_tags filepath title ↔ x ∈ matching_rules filepath title.
Proof. by rewrite heuristic_tags_matching, elem_of_list_to_set. Qed.

Lemma heuristic_tags_empty (filepath : string) (title : option string) :
  heuristic_tags filepath title = ∅ ↔ matching_rules filepath title = [].
Proof.
  split; intros H.
  - apply elem_of_nil_inv. intros x Hx%heuristic_tags_elem.
    rewrite H in Hx. by apply elem_of_empty in Hx.
  - rewrite heuristic_tags_matching, H. reflexivity.
Qed.

(** The three ways of the last step of [infer_tags]. *)
Lemma ensure_two_cases (X : gset string) :
  (X = ∅ ∧ ensure_two X = {[ "documentation"; "guide" ]}) ∨
  (∃ x, X = {[ x ]} ∧ ensure_two X = {[ x; "guide" ]}) ∨
  ((2 <= size X)%nat ∧ ensure_two X = X).
Proof.
  unfold ensure_two. destruct (size X) as [|[|n]] eqn:Hsize.
  - left. apply size_empty_inv in Hsize. apply leibniz_equiv in Hsize. subst X.
    split; [done|]. cbn [Nat.eqb]. rewrite (left_id_L ∅ (∪)), size_singleton. done.
  - right; left. destruct (size_1_elem_of X Hsize) as [x Hx].
    apply leibniz_equiv in Hx. exists x. split; [done|]. cbn [Nat.eqb].
    by rewrite Hsize, Hx.
  - right; right. split; [lia|]. cbn [Nat.eqb]. by rewrite Hsize.
Qed.

Lemma sorted_singleton (x : string) : sorted {[ x ]} = [x].
Proof. unfold sorted. by rewrite elements_singleton. Qed.

Lemma size_pair (x y : string) : x ≠ y → size ({[ x; y ]} : gset string) = 2%nat.
Proof.
  intros Hne. rewrite size_union, !size_singleton; [done|].
  intros z ->%elem_of_singleton ?%elem_of_singleton. done.
Qed.

Lemma rule_tags_standard : Forall (λ x, x ∈ STANDARD_TAGS) tag_rules.*1.
Proof. apply (bool_decide_unpack (Forall _ _)). by vm_compute. Qed.

(** For every path and title, the list [infer_tags] returns is sorted, has
    no duplicate, and holds tags of [STANDARD_TAGS] only. *)
Theorem infer_tags_sorted_standard (filepath : string) (title : option string) :
  StronglySorted String.le (infer_tags filepath title) ∧
  NoDup (infer_tags filepath title) ∧
  ∀ x, x ∈ infer_tags filepath title → x ∈ STANDARD_TAGS.
Proof.
  split_and!; [apply sorted_Sorted|apply sorted_NoDup|].
  intros x Hx. unfold infer_tags in Hx. apply sorted_elem in Hx.
  assert (Hrule : ∀ y, y ∈ heuristic_tags filepath title → y ∈ STANDARD_TAGS).
  { intros y Hy%heuristic_tags_elem%matching_rules_elem.
    pose proof rule_tags_standard as HF. rewrite Forall_forall in HF. by apply HF. }
  destruct (ensure_two_cases (heuristic_tags filepath title))
    as [[_ He]|[(y & Hy & He)|[_ He]]]; rewrite He in Hx.
  - apply elem_of_union in Hx as [Hx|Hx]; apply elem_of_singleton in Hx; by subst.
  - apply elem_of_union in Hx as [Hx|Hx]; apply elem_of_singleton in Hx; subst x.
    + apply Hrule. rewrite Hy. by apply elem_of_singleton.
    + done.
  - by apply Hrule.
Qed.

(** [infer_tags] never returns an empty list, and it returns one tag
    exactly when [guide] is the one tag of the rules that match: the list
    is then [guide] alone. *)
Theorem infer_tags_length (filepath : string) (title : option string) :
  (1 <= length (infer_tags filepath title))%nat ∧
  (length (infer_tags filepath title) = 1%nat ↔
   heuristic_tags filepath title = {[ "guide" ]}) ∧
  (length (infer_tags filepath title) = 1%nat → infer_tags filepath title = ["guide"]).
Proof.
  unfold infer_tags. rewrite sorted_length.
  destruct (ensure_two_cases (heuristic_tags filepath title))
    as [[HX He]|[(y & Hy & He)|[Hs He]]]; rewrite He.
  - rewrite size_pair by done. split_and!; [lia| |lia].
    split; [lia|]. rewrite HX. intros H. exfalso.
    assert (Hg : "guide" ∈ (∅ : gset string)) by (rewrite H; by apply elem_of_singleton).
    by apply elem_of_empty in Hg.
  - destruct (decide (y = "guide")) as [->|Hne].
    + assert (Hu : ({[ "guide"; "guide" ]} : gset string) = {[ "guide" ]})
        by apply (idemp_L (∪)).
      rewrite Hu, size_singleton, sorted_singleton. by split_and!.
    + rewrite size_pair by done. split_and!; [lia| |lia].
      split; [lia|]. rewrite Hy. intros H. exfalso. apply Hne.
      assert (Hg : y ∈ ({[ "guide" ]} : gset string))
        by (rewrite <- H; by apply elem_of_singleton).
      by apply elem_of_singleton in Hg.
  - split_and!; [lia| |lia]. split; [lia|]. intros H. rewrite H, size_singleton in Hs. lia.
Qed.

(** Which tags [infer_tags] returns: the tags of the rules that match,
    [documentation] when no rule matches, and [guide] when the rules give
    at most one tag. *)
Theorem infer_tags_elem (filepath : string) (title : option string) (x : string) :
  x ∈ infer_tags filepath title ↔
    x ∈ matching_rules filepath title ∨
    (x = "documentation" ∧ matching_rules filepath title = []) ∨
    (x = "guide" ∧ (size (heuristic_tags filepath title) <= 1)%nat).
Proof.
  unfold infer_tags. rewrite sorted_elem, <- heuristic_tags_elem, <- heuristic_tags_empty.
  destruct (ensure_two_cases (heuristic_tags filepath title))
    as [[HX He]|[(y & Hy & He)|[Hs He]]]; rewrite He.
  - rewrite HX, size_empty, elem_of_union, !elem_of_singleton. split.
    + intros [->| ->]; [right; left|right; right]; split; [done..|lia].
    + intros [H|[[-> _]|[-> _]]]; [by apply elem_of_empty in H|by left|by right].
  - rewrite Hy, size_singleton, elem_of_union, !elem_of_singleton. split.
    + intros [->| ->]; [by left|right; right]. split; [done|lia].
    + intros [->|[[_ H]|[-> _]]]; [by left| |by right].
      exfalso. assert (Hy' : y ∈ (∅ : gset string))
        by (rewrite <- H; by apply elem_of_singleton).
      by apply elem_of_empty in Hy'.
  - split; [by left|]. intros [H|[[_ H]|[_ H]]]; [done| |lia].
    rewrite H, size_empty in Hs. lia.
Qed.

(** Below the documentation root the step that ensures two tags never
    acts: the list is the sorted set of the tags of the rules, and
    [documentation] is never among them. *)
Theorem infer_tags_below_docs_rules_only (rel : string) (title : option string) :
  infer_tags (docs_prefix +:+ rel) title
    = sorted (heuristic_tags (docs_prefix +:+ rel) title) ∧
  "documentation" ∉ infer_tags (docs_prefix +:+ rel) title.
Proof.
  assert (Hs : (2 <= size (heuristic_tags (docs_prefix +:+ rel) title))%nat).
  { apply (two_distinct_size _ "user" "developer"); [done|..].
    - apply user_in_tags_below_docs.
    - apply developer_in_tags_below_docs. }
  assert (He : ensure_two (heuristic_tags (docs_prefix +:+ rel) title)
               = heuristic_tags (docs_prefix +:+ rel) title).
  { destruct (ensure_two_cases (heuristic_tags (docs_prefix +:+ rel) title))
      as [[HX _]|[(y & Hy & _)|[_ He]]]; [| |done].
    - rewrite HX, size_empty in Hs. lia.
    - rewrite Hy, size_singleton in Hs. lia. }
  unfold infer_tags. rewrite He. split; [done|].
  rewrite sorted_elem. intros Hd%heuristic_tags_elem%matching_rules_elem.
  apply (bool_decide_pack _) in Hd. by vm_compute in Hd.
Qed.

(** ** The category *)

(** [infer_category] returns one of the four categories; below the
    documentation root neither the [developer] rule nor the default is
    reached: a path with none of the words of the path rules is a
    [tutorial], by the [user] of the root. *)
Theorem infer_category_range (filepath rel : string) :
  infer_category filepath ∈ ["tutorial"; "howto"; "reference"; "explanation"] ∧
  (category_keyword (lower (docs_prefix +:+ rel)) = false →
   infer_category (docs_prefix +:+ rel) = "tutorial").
Proof.
  split.
  - unfold infer_category.
    repeat match goal with
           | |- context [if ?b then _ else _] => destruct b
           end; set_solver.
  - unfold category_keyword, infer_category. intros H.
    do 9 (apply orb_false_iff in H as [H ?]).
    repeat match goal with
           | Hc : contains _ _ = false |- _ => rewrite Hc; clear Hc
           end.
    by rewrite (contains_below_docs "user").
Qed.

Lemma infer_category_range_witness :
  infer_category (docs_prefix +:+ "relay/storage.md") = "tutorial".
Proof.
  refine (proj2 (infer_category_range EmptyString "relay/storage.md") _).
  vm_compute. reflexivity.
Defined.

(** ** The key of the curated lookup *)

Lemma replace_skip (old new w s : string) :
  replace_from old new (String.length w) (w +:+ s) = replace_from old new 0 s.
Proof. induction w as [|c w IH]; [done|]. rewrite app_cons. exact IH. Qed.

Lemma is_prefix_app_self (a s : string) : is_prefix a (a +:+ s) = true.
Proof.
  induction a as [|c a IH]; [done|]. rewrite app_cons. simpl.
  by rewrite decide_True.
Qed.

Lemma replace_prefix (old new s : string) :
  old ≠ EmptyString → replace old new (old +:+ s) = new +:+ replace old new s.
Proof.
  intros Hne. destruct old as [|c old]; [done|]. unfold replace.
  rewrite app_cons. cbn [replace_from]. rewrite <- app_cons, is_prefix_app_self.
  replace (String.length (String c old) - 1)%nat with (String.length old)
    by (simpl; lia).
  by rewrite replace_skip.
Qed.

Lemma replace_absent (old new s : string) :
  contains old s = false → replace old new s = s.
Proof.
  unfold replace. induction s as [|c s IH]; [done|].
  intros H. cbn [contains] in H. apply orb_false_iff in H as [Hp Hs].
  cbn [replace_from]. rewrite Hp. by rewrite IH.
Qed.

(** The key [create_frontmatter] looks up for a file below the root is
    what [replace] leaves of the part below the root, and that part itself,
    the path [main] reports, when the root does not occur in it again: the
    file is then resolved from the curated table exactly when that path is
    a key. *)
Theorem relative_path_below_docs (rel content : string) :
  relative_path (docs_prefix +:+ rel) = relative_path rel ∧
  (contains docs_prefix rel = false →
   relative_path (docs_prefix +:+ rel) = relative_to_docs (docs_prefix +:+ rel) ∧
   resolve_metadata (docs_prefix +:+ rel) content
   = match METADATA_MAP !! rel with
     | Some entry => entry
     | None =>
         {| title := heuristic_title (docs_prefix +:+ rel) content;
            description :=
              heuristic_description (heuristic_title (docs_prefix +:+ rel) content) content;
            category := infer_category (docs_prefix +:+ rel);
            tags := infer_tags (docs_prefix +:+ rel)
                      (Some (heuristic_title (docs_prefix +:+ rel) content));
            difficulty := infer_difficulty (docs_prefix +:+ rel) |}
     end).
Proof.
  assert (H1 : relative_path (docs_prefix +:+ rel) = relative_path rel).
  { unfold relative_path. by rewrite replace_prefix. }
  split; [done|]. intros Habs.
  assert (H2 : relative_path (docs_prefix +:+ rel) = rel).
  { rewrite H1. by apply replace_absent. }
  split; [by rewrite relative_to_docs_below|].
  destruct (METADATA_MAP !! rel) as [entry|] eqn:Hk.
  - apply resolve_curated. by rewrite H2.
  - apply resolve_heuristic. by rewrite H2.
Qed.

Lemma relative_path_below_docs_witness :
  relative_path (docs_prefix +:+ "guides/setup.md") = "guides/setup.md".
Proof.
  destruct (relative_path_below_docs "guides/setup.md" EmptyString) as [_ H].
  destruct H as [H _]; [vm_compute; reflexivity|].
  rewrite H. reflexivity.
Defined.

(** Without that condition the key can be a curated one for a file that
    is somewhere else. *)
Example embedded_root_is_curated :
  relative_path (docs_prefix +:+ "a" +:+ docs_prefix +:+ "dr/002-three-tier-hierarchy.md")
  = "adr/002-three-tier-hierarchy.md".
Proof. by vm_compute. Qed.

(** ** What a run changes, and what it reports *)

Lemma filter_lacks_insert (fs : gmap string string) (f w : string) (l : list string) :
  f ∉ l →
  filter (λ g, lacks_frontmatter (<[f := w]> fs) g = true) l
  = filter (λ g, lacks_frontmatter fs g = true) l.
Proof.
  induction l as [|a l IH]; [done|]. intros Hf.
  apply not_elem_of_cons in Hf as [Hne Hf].
  assert (Heq : lacks_frontmatter (<[f := w]> fs) a = lacks_frontmatter fs a).
  { unfold lacks_frontmatter. by rewrite lookup_insert_ne. }
  rewrite !filter_cons, Heq. by rewrite IH.
Qed.

(** The list the loop ends with: the files that lack front matter, in the
    order of the walk. *)
Lemma main_loop_updated (today : string) (files : list string) :
  ∀ (fs : gmap string string) (upd : list string),
    NoDup files → (∀ f, f ∈ files → is_Some (fs !! f)) →
    ∃ fs',
      main_loop today files fs upd
      = Some (fs', (upd ++ (relative_to_docs <$>
                              filter (λ f, lacks_frontmatter fs f = true) files))%list).
Proof.
  induction files as [|f files IH]; intros fs upd Hnd Hex.
  - exists fs. simpl. by rewrite app_nil_r.
  - apply NoDup_cons in Hnd as [Hf Hnd].
    destruct (Hex f) as [c Hc]; [by left|].
    assert (Hl : lacks_frontmatter fs f = negb (starts_with_frontmatter c)).
    { unfold lacks_frontmatter. by rewrite Hc. }
    rewrite filter_cons.
    destruct (starts_with_frontmatter c) eqn:Hs; simpl in Hl.
    + rewrite decide_False by (by rewrite Hl). simpl.
      rewrite (add_frontmatter_to_file_skip today fs f c) by done.
      apply IH; [done|]. intros g Hg. apply Hex. by right.
    + rewrite decide_True by done. simpl.
      rewrite (add_frontmatter_to_file_write today fs f c) by done.
      destruct (IH (<[f := with_frontmatter today f c]> fs)
                  (upd ++ [relative_to_docs f])%list Hnd) as [fs' Hrun].
      { intros g Hg. destruct (decide (g = f)) as [->|Hne]; [done|].
        rewrite lookup_insert_ne by done. apply Hex. by right. }
      exists fs'. rewrite Hrun, filter_lacks_insert by done.
      by rewrite <- app_assoc.
Qed.

Lemma main_updated (today : string) (fs : gmap string string) :
  ∃ fs',
    main today fs
    = Some (fs', relative_to_docs <$>
                   filter (λ f, lacks_frontmatter fs f = true) (rglob_md fs)).
Proof.
  destruct (main_loop_updated today (rglob_md fs) fs [] (NoDup_rglob_md fs)) as [fs' H].
  { intros f Hf. by apply elem_of_rglob_md in Hf as [_ ?]. }
  by exists fs'.
Qed.

Lemma with_frontmatter_changes (today p stored : string) :
  starts_with_frontmatter stored = false → with_frontmatter today p stored ≠ stored.
Proof.
  intros Hs Heq. pose proof (written_starts_with_frontmatter today p stored) as Hw.
  rewrite Heq in Hw. congruence.
Qed.

Lemma elem_of_changed_files (fs fs' : gmap string string) (p : string) :
  p ∈ changed_files fs fs' ↔ ∃ c, fs !! p = Some c ∧ fs' !! p ≠ Some c.
Proof.
  unfold changed_files. rewrite elem_of_dom. split.
  - intros [c Hc]. apply map_lookup_filter_Some in Hc as [Hc Hp]. by exists c.
  - intros (c & Hc & Hp). exists c. by apply map_lookup_filter_Some.
Qed.



Lemma main_changed (today : string) (fs : gmap string string) :
  ∃ fs' upd,
    main today fs = Some (fs', upd) ∧
    NoDup upd ∧
    length upd = size (changed_files fs fs') ∧
    (∀ p, p ∈ changed_files fs fs' ↔ ∃ rel, p = docs_prefix +:+ rel ∧ rel ∈ upd).
Proof.
  destruct (main_spec today fs) as (fs' & upd & Hrun & Hfs & Hupd).
  destruct (main_updated today fs) as (fs2 & Hrun2).
  rewrite Hrun in Hrun2. injection Hrun2 as <- Hlist.
  set (L := filter (λ f, lacks_frontmatter fs f = true) (rglob_md fs)) in *.
  assert (HL : ∀ f, f ∈ L → ∃ rel, f = docs_prefix +:+ rel).
  { intros f [_ [Hd _]%elem_of_rglob_md]%list_elem_of_filter.
    by apply is_doc_below_docs. }
  assert (HndL : NoDup L) by apply NoDup_filter, NoDup_rglob_md.
  assert (Hch : ∀ p, p ∈ changed_files fs fs' ↔ ∃ rel, p = docs_prefix +:+ rel ∧ rel ∈ upd).
  { intros p. rewrite elem_of_changed_files. split.
    - intros (c & Hc & Hne). rewrite Hfs, Hc in Hne.
      destruct (is_doc p) eqn:Hd; [|done]. simpl in Hne.
      destruct (is_doc_below_docs p Hd) as [rel ->]. exists rel. split; [done|].
      apply Hupd. exists (docs_prefix +:+ rel), c.
      rewrite relative_to_docs_below. split_and!; [done..| |done].
      unfold processed in Hne. by destruct (starts_with_frontmatter c).
    - intros (rel & -> & (f & c & Hd & Hc & Hs & Hr)%Hupd).
      destruct (is_doc_below_docs f Hd) as [rel' ->].
      rewrite relative_to_docs_below in Hr. subst rel'.
      exists c. split; [done|]. rewrite Hfs, Hd, Hc. simpl. unfold processed.
      rewrite Hs. intros [= Heq]. by apply (with_frontmatter_changes today) in Heq. }
  exists fs', upd. split_and!; [done| | |done].
  - rewrite Hlist. apply NoDup_fmap_2_strong; [|done].
    intros x y [rx ->]%HL [ry ->]%HL. rewrite !relative_to_docs_below. by intros ->.
  - assert (Hset : changed_files fs fs' = list_to_set L).
    { apply set_eq. intros p. rewrite Hch, elem_of_list_to_set, Hlist. split.
      - intros (rel & -> & (f & Hr & Hf)%list_elem_of_fmap).
        destruct (HL f Hf) as [rf ->]. rewrite relative_to_docs_below in Hr. by subst rf.
      - intros Hp. destruct (HL p Hp) as [rel ->]. exists rel. split; [done|].
        apply list_elem_of_fmap. exists (docs_prefix +:+ rel).
        by rewrite relative_to_docs_below. }
    rewrite Hset, size_list_to_set by done. by rewrite Hlist, length_fmap.
Qed.

(** [updated_files] lists each file whose characters the run has changed,
    once, by its path below the root: its length, the count the run
    reports, is the number of changed files. *)
Theorem main_updated_files (today : string) (fs : gmap string string) :
  ∃ fs' upd,
    main today fs = Some (fs', upd) ∧
    NoDup upd ∧
    length upd = size (changed_files fs fs') ∧
    (∀ p, p ∈ changed_files fs fs' ↔ ∃ rel, p = docs_prefix +:+ rel ∧ rel ∈ upd).
Proof. apply main_changed. Qed.

Lemma rerun_nothing (day1 day2 : string) (fs fs1 : gmap string string)
    (upd1 : list string) :
  main day1 fs = Some (fs1, upd1) → main day2 fs1 = Some (fs1, []).
Proof.
  intros Hrun. destruct (main_spec day1 fs) as (fs1' & upd1' & Hrun1 & Hfs1 & _).
  rewrite Hrun in Hrun1. injection Hrun1 as <- <-.
  assert (Hfm : ∀ p stored, is_doc p = true → fs1 !! p = Some stored →
                  starts_with_frontmatter stored = true).
  { intros p stored Hd Hp. rewrite Hfs1, Hd in Hp.
    destruct (fs !! p) as [c|]; [|done]. simpl in Hp. injection Hp as <-.
    apply processed_starts_with_frontmatter. }
  destruct (main_spec day2 fs1) as (fs2 & upd2 & Hrun2 & Hfs2 & Hupd2).
  assert (fs2 = fs1) as ->.
  { apply map_eq. intros p. rewrite Hfs2.
    destruct (is_doc p) eqn:Hd; [|done].
    destruct (fs1 !! p) as [c|] eqn:Hp; [|done].
    simpl. rewrite processed_skip; [done|]. by apply (Hfm p). }
  assert (upd2 = []) as ->; [|done].
  apply elem_of_nil_inv. intros r (f & c & Hd & Hc & Hs & _)%Hupd2.
  rewrite (Hfm f c Hd Hc) in Hs. done.
Qed.

(** A run over what a run has left prints the count line alone, with the
    count 0. *)
Theorem second_run_output (day1 day2 : string) (fs : gmap string string) :
  ∃ fs1 upd1,
    main day1 fs = Some (fs1, upd1) ∧
    main_output day2 fs1 = Some (nl +:+ nl +:+ "Updated 0 files" +:+ nl).
Proof.
  destruct (main_spec day1 fs) as (fs1 & upd1 & Hrun & _).
  exists fs1, upd1. split; [done|].
  unfold main_output. by rewrite (rerun_nothing day1 day2 fs fs1 upd1).
Qed.

(** ** What the heading pattern can capture *)

(** Whatever a quantified item matches: a run of characters of the item,
    after which the rest of the pattern matches. *)
Lemma rep_inv {R} (fl : flags) (greedy : bool) (min : nat) (a : atom)
    (cap : option string) (k : option ascii → string → option string → option R)
    (s : string) :
  ∀ (n : nat) (prev : option ascii) (r : R),
    rep fl greedy min a cap k n prev s = Some r →
    ∃ w rest, s = w +:+ rest ∧ all_chars (atom_ok fl a) w = true ∧
              k (last_char prev w) rest cap = Some r.
Proof.
  induction s as [|c s IH]; intros n prev r H.
  - exists EmptyString, EmptyString. split_and!; [done..|].
    cbn [rep] in H. cbn [last_char].
    destruct greedy, (min <=? n)%nat; simpl in H; try done.
    by destruct (k prev EmptyString cap).
  - cbn [rep] in H.
    assert (Hmore : ∀ r',
              (if atom_ok fl a c then rep fl greedy min a cap k (S n) (Some c) s else None)
              = Some r' →
              ∃ w rest, String c s = w +:+ rest ∧ all_chars (atom_ok fl a) w = true ∧
                        k (last_char prev w) rest cap = Some r').
    { intros r' Hr'. destruct (atom_ok fl a c) eqn:Hc; [|done].
      destruct (IH _ _ _ Hr') as (w & rest & -> & Hw & Hk).
      exists (String c w), rest. split_and!; [done| |done]. simpl. by rewrite Hc, Hw. }
    assert (Hstop : ∀ r',
              (if (min <=? n)%nat then k prev (String c s) cap else None) = Some r' →
              ∃ w rest, String c s = w +:+ rest ∧ all_chars (atom_ok fl a) w = true ∧
                        k (last_char prev w) rest cap = Some r').
    { intros r' Hr'. destruct (min <=? n)%nat; [|done].
      by exists EmptyString, (String c s). }
    destruct greedy.
    + destruct (if atom_ok fl a c then rep fl true min a cap k (S n) (Some c) s else None)
        as [r'|] eqn:Hm.
      * injection H as <-. by apply Hmore.
      * by apply Hstop.
    + destruct (if (min <=? n)%nat then k prev (String c s) cap else None)
        as [r'|] eqn:Hm.
      * injection H as <-. by apply Hstop.
      * by apply Hmore.
Qed.

Lemma search_from_inv (fl : flags) (p : pattern) (s : string) :
  ∀ (prev : option ascii) (m : rmatch),
    search_from fl p prev s = Some m →
    ∃ prev' s', match_here fl p prev' s' = Some m.
Proof.
  induction s as [|c s IH]; intros prev m H; cbn [search_from] in H.
  - destruct (match_here fl p prev EmptyString) eqn:Hm; [|done].
    injection H as <-. by eexists _, _.
  - destruct (match_here fl p prev (String c s)) eqn:Hm.
    + injection H as <-. by eexists _, _.
    + by apply IH in H.
Qed.

(** Group 1 of a match of the heading pattern has no newline. *)
Lemma heading_group_one_line (prev : option ascii) (s : string) (m : rmatch) :
  match_here Re.M heading_re prev s = Some m →
  ∃ g, group1 m = Some g ∧ all_chars not_LF g = true.
Proof.
  unfold match_here, heading_re. cbn [run]. intros H.
  destruct (at_bol Re.M prev); [|done].
  destruct s as [|c s]; [done|].
  destruct (atom_ok Re.M (Lit "#") c); [|done].
  apply rep_inv in H as (ws & s2 & _ & _ & H). cbn [run] in H.
  apply rep_inv in H as (body & s3 & -> & Hbody & H). cbn [run] in H.
  destruct (at_eol Re.M s3); [|done]. injection H as <-.
  exists body. cbn [group1]. by rewrite consumed_app.
Qed.

Lemma all_chars_lstrip (f : ascii → bool) (s : string) :
  all_chars f s = true → all_chars f (lstrip s) = true.
Proof.
  induction s as [|c s IH]; [done|]. simpl. intros [Hc Hs]%andb_true_iff.
  destruct (is_space c); [by apply IH|]. simpl. by rewrite Hc, Hs.
Qed.

Lemma all_chars_rstrip (f : ascii → bool) (s : string) :
  all_chars f s = true → all_chars f (rstrip s) = true.
Proof.
  induction s as [|c s IH]; [done|]. simpl. intros [Hc Hs]%andb_true_iff.
  specialize (IH Hs). destruct (rstrip s) as [|d r].
  - destruct (is_space c); [done|]. simpl. by rewrite Hc.
  - simpl in *. by rewrite Hc, IH.
Qed.

Lemma rstrip_idem (s : string) : rstrip (rstrip s) = rstrip s.
Proof.
  induction s as [|c s IH]; [done|]. simpl.
  destruct (rstrip s) as [|d r] eqn:Hr.
  - destruct (is_space c) eqn:Hc; [done|]. simpl. by rewrite Hc.
  - cbn [rstrip]. cbn [rstrip] in IH. by rewrite IH.
Qed.

Lemma rstrip_head (c : ascii) (s : string) :
  is_space c = false → ∃ r, rstrip (String c s) = String c r.
Proof.
  intros Hc. simpl. destruct (rstrip s); [|by eexists].
  rewrite Hc. by eexists.
Qed.

(** [strip] leaves a stripped text as it is. *)
Lemma strip_idem (s : string) : strip (strip s) = strip s.
Proof.
  unfold strip. pose proof (lstrip_head s) as Hh.
  destruct (lstrip s) as [|c y] eqn:Hy; [done|].
  destruct (rstrip_head c y Hh) as [r Hr]. rewrite Hr.
  cbn [lstrip]. rewrite Hh, <- Hr. apply rstrip_idem.
Qed.

(** A title [extract_title_from_heading] returns is one line without
    white space around it: it has no newline, and [strip] leaves it as it
    is. *)
Theorem extract_title_one_line (content t : string) :
  extract_title_from_heading content = Some t →
  all_chars not_LF t = true ∧ strip t = t.
Proof.
  unfold extract_title_from_heading, Re.search.
  destruct (search_from Re.M heading_re None content) as [m|] eqn:Hm; [|done].
  intros [= <-]. apply search_from_inv in Hm as (prev & s & Hm).
  apply heading_group_one_line in Hm as (g & -> & Hg). simpl. split.
  - by apply all_chars_rstrip, all_chars_lstrip.
  - apply strip_idem.
Qed.

Lemma extract_title_one_line_witness :
  all_chars not_LF "Relay storage" = true ∧ strip "Relay storage" = "Relay storage".
Proof.
  apply (extract_title_one_line
           ("Intro" +:+ nl +:+ "#  Relay storage  " +:+ nl +:+ "text")).
  vm_compute. reflexivity.
Defined.

(** ** The white space of a description *)

Lemma lstrip_length (s : string) : (String.length (lstrip s) <= String.length s)%nat.
Proof.
  induction s as [|c s IH]; [done|]. simpl. destruct (is_space c); simpl; lia.
Qed.

(** The pattern for white space at a white-space character: the match is
    the run of white space that starts there. *)
Lemma spaces_match (prev : option ascii) (c : ascii) (s : string) :
  is_space c = true →
  ∃ ws, match_here Re.no_flags spaces_re prev (String c s)
        = Some {| whole := String c ws; group1 := None; after := lstrip s |}.
Proof.
  intros Hc. destruct (lstrip_split s) as (ws & Hs & Hws). exists ws.
  assert (E : String c s = String c ws +:+ lstrip s) by (by rewrite app_cons, <- Hs).
  unfold match_here, spaces_re. cbn [run]. rewrite E.
  apply rep_greedy_span.
  - simpl. by rewrite Hc.
  - pose proof (lstrip_head s) as Hh. by destruct (lstrip s).
  - simpl. lia.
  - by rewrite consumed_app.
Qed.

Lemma spaces_no_match (prev : option ascii) (s : string) :
  match s with String c _ => is_space c = false | EmptyString => True end →
  match_here Re.no_flags spaces_re prev s = None.
Proof.
  intros H. unfold match_here, spaces_re. cbn [run].
  destruct s as [|c s]; [done|]. cbn [rep atom_ok]. by rewrite H.
Qed.

(** After [re.sub(r'\s+', ' ', _)] the only white space is the space. *)
Lemma sub_spaces_plain (fuel : nat) :
  ∀ (prev : option ascii) (s : string),
    (String.length s < fuel)%nat →
    all_chars plain_space (sub_from fuel Re.no_flags spaces_re " " prev s) = true.
Proof.
  induction fuel as [|fuel IH]; intros prev s Hlen; [lia|].
  cbn [sub_from]. destruct s as [|c s].
  - by rewrite spaces_no_match.
  - destruct (is_space c) eqn:Hc.
    + destruct (spaces_match prev c s Hc) as [ws ->]. cbn [whole after].
      rewrite app_cons. cbn [all_chars]. rewrite app_empty_l.
      rewrite IH; [done|]. pose proof (lstrip_length s). simpl in Hlen. lia.
    + rewrite spaces_no_match by done. cbn [all_chars].
      unfold plain_space at 1. rewrite Hc. simpl. apply IH. simpl in Hlen. lia.
Qed.

Lemma all_chars_take (f : ascii → bool) (n : nat) (s : string) :
  all_chars f s = true → all_chars f (take_chars n s) = true.
Proof.
  revert s. induction n as [|n IH]; intros [|c s]; simpl; try done.
  intros [Hc Hs]%andb_true_iff. by rewrite Hc, IH.
Qed.

(** The description of a file without a curated entry is the title
    followed by [documentation], or a text of at most 200 characters in
    which the only white space is the space: no newline, no tab. *)
Theorem heuristic_description_normalized (title content : string) :
  heuristic_description title content = title +:+ " documentation" ∨
  ((String.length (heuristic_description title content) <= 200)%nat ∧
   all_chars plain_space (heuristic_description title content) = true).
Proof.
  unfold heuristic_description.
  destruct (Re.search Re.MS desc_re content); [right|by left].
  split; [apply take_chars_length|].
  apply all_chars_take. unfold Re.sub. apply sub_spaces_plain. lia.
Qed.

(** ** The title of a Markdown file is never empty *)

Lemma last_char_some (prev prev' : option ascii) (s : string) :
  s ≠ EmptyString → last_char prev s = last_char prev' s.
Proof. destruct s; [done|]. reflexivity. Qed.

Lemma last_char_app (prev : option ascii) (a b : string) :
  last_char prev (a +:+ b) = last_char (last_char prev a) b.
Proof.
  revert prev. induction a as [|c a IH]; intros prev; [done|].
  rewrite app_cons. simpl. apply IH.
Qed.

Lemma is_suffix_split (suf s : string) :
  is_suffix_from suf s = true → ∃ pre, s = pre +:+ suf.
Proof.
  induction s as [|c s IH]; simpl.
  - rewrite orb_false_r. intros <-%bool_decide_eq_true. by exists EmptyString.
  - intros [<-%bool_decide_eq_true|H]%orb_true_iff; [by exists EmptyString|].
    destruct (IH H) as [pre ->]. by exists (String c pre).
Qed.

(** The name of a path is empty only when the path is empty or ends with a
    slash. *)
Lemma name_from_empty (acc s : string) :
  acc ≠ EmptyString ∨ s = EmptyString →
  name_from acc s = EmptyString →
  (s = EmptyString ∧ acc = EmptyString) ∨ last_char None s = Some "/"%char.
Proof.
  revert acc. induction s as [|c s IH]; intros acc Hacc H; [by left|right].
  cbn [name_from] in H. destruct Hacc as [Hacc|?]; [|done].
  destruct (decide (c = "/"%char)) as [->|Hc].
  - destruct (IH s) as [[-> _]|Hl]; [destruct s; [by right|by left]|done|done|].
    destruct s; [done|]. exact Hl.
  - destruct (IH acc) as [[_ ?]|Hl]; [by left|done|done|].
    destruct s; [done|]. exact Hl.
Qed.

Lemma stem_nonempty (p : string) : path_name p ≠ EmptyString → stem p ≠ EmptyString.
Proof.
  unfold stem. intros Hn. destruct (rfind_dot 0 (path_name p)) as [i|]; [|done].
  destruct ((0 <? i)%nat && (i <? String.length (path_name p) - 1)%nat) eqn:Hi; [|done].
  apply andb_true_iff in Hi as [Hi _]. apply Nat.ltb_lt in Hi.
  destruct i; [lia|]. by destruct (path_name p).
Qed.

Lemma replace_char_nonempty (a b : ascii) (s : string) :
  s ≠ EmptyString → replace (str1 a) (str1 b) s ≠ EmptyString.
Proof.
  destruct s as [|c s]; [done|]. intros _. unfold replace. cbn [replace_from].
  by destruct (is_prefix (str1 a) (String c s)).
Qed.

Lemma title_case_nonempty (s : string) : s ≠ EmptyString → title_case s ≠ EmptyString.
Proof.
  destruct s as [|c s]; [done|]. intros _. unfold title_case. simpl.
  by destruct (is_upper c || is_lower c).
Qed.

Lemma curated_title_nonempty (k : string) (entry : Metadata) :
  METADATA_MAP !! k = Some entry → title entry ≠ EmptyString.
Proof. revert k entry. each_curated_entry; done. Qed.

(** Every Markdown file below the root is given a title that is not
    empty, whatever it holds: the curated title, the text of a heading, or
    the name of the file. *)
Theorem title_nonempty (p content : string) :
  is_doc p = true → title (resolve_metadata p content) ≠ EmptyString.
Proof.
  intros Hd. unfold resolve_metadata.
  destruct (METADATA_MAP !! relative_path p) as [entry|] eqn:Hk.
  - cbn [title]. by apply (curated_title_nonempty _ _ Hk).
  - cbn [title]. unfold heuristic_title.
    destruct (extract_title_from_heading content) as [[|c t]|]; [|done|];
      apply title_case_nonempty, (replace_char_nonempty "_" " "),
            (replace_char_nonempty "-" " "), stem_nonempty;
      unfold path_name; intros Hn;
      apply is_doc_below_docs in Hd as Hp; destruct Hp as [rel ->];
      unfold is_doc in Hd; apply andb_true_iff in Hd as [_ Hs];
      apply is_suffix_split in Hs as [pre Hs];
      (apply name_from_empty in Hn as [[Hn _]|Hn]; [done| |by left]);
      rewrite Hs, last_char_app in Hn; done.
Qed.

Lemma title_nonempty_witness :
  title (resolve_metadata (docs_prefix +:+ "a_b-c.md") EmptyString) ≠ EmptyString.
Proof.
  apply (title_nonempty (docs_prefix +:+ "a_b-c.md") EmptyString).
  vm_compute. reflexivity.
Defined.

Example title_from_name :
  title (resolve_metadata (docs_prefix +:+ "a_b-c.md") EmptyString) = "A B C".
Proof. by vm_compute. Qed.

(** ** The title only adds tags *)

Lemma infer_tags_below_docs_sorted (rel : string) (title : option string) :
  infer_tags (docs_prefix +:+ rel) title
  = sorted (heuristic_tags (docs_prefix +:+ rel) title).
Proof.
  unfold infer_tags.
  destruct (ensure_two_cases (heuristic_tags (docs_prefix +:+ rel) title))
    as [[HX _]|[(y & Hy & _)|[_ ->]]]; [| |done]; exfalso.
  - pose proof (user_in_tags_below_docs rel title) as Hu. rewrite HX in Hu.
    by apply elem_of_empty in Hu.
  - pose proof (user_in_tags_below_docs rel title) as Hu.
    pose proof (developer_in_tags_below_docs rel title) as Hd.
    rewrite Hy in Hu, Hd. apply elem_of_singleton in Hu, Hd. congruence.
Qed.

Lemma rules_title_monotone (path_str title_lower : string) :
  Forall (λ r, r.2 path_str EmptyString = true → r.2 path_str title_lower = true)
    tag_rules.
Proof.
  unfold tag_rules. repeat apply Forall_cons_2; try apply Forall_nil_2;
    cbn [snd]; intros H; try exact H;
    (apply orb_true_iff in H as [->|H]; [done|by vm_compute in H]).
Qed.

(** In a run the words of the title only add tags: every tag the path
    gives without a title is a tag with any title. *)
Theorem title_adds_tags (rel title x : string) :
  x ∈ infer_tags (docs_prefix +:+ rel) None →
  x ∈ infer_tags (docs_prefix +:+ rel) (Some title).
Proof.
  rewrite !infer_tags_below_docs_sorted, !sorted_elem, !heuristic_tags_elem.
  unfold matching_rules, path_and_title.
  intros (r & -> & [Hr Hin]%list_elem_of_filter)%list_elem_of_fmap.
  apply list_elem_of_fmap. exists r. split; [done|].
  apply list_elem_of_filter. split; [|done].
  pose proof (rules_title_monotone (lower (docs_prefix +:+ rel))
                match title with
                | String c t => lower (String c t)
                | EmptyString => EmptyString
                end) as HF.
  rewrite Forall_forall in HF. by apply HF.
Qed.

Lemma title_adds_tags_witness :
  "developer" ∈ infer_tags (docs_prefix +:+ "relay/storage.md") (Some "Nostr relay").
Proof.
  apply (title_adds_tags "relay/storage.md" "Nostr relay" "developer").
  apply (bool_decide_unpack _). vm_compute. reflexivity.
Defined.

(** ** The two patterns on well-formed documents *)

(** On a content in which no line is [#] followed by white space alone,
    [extract_title_from_heading] returns the text of the first line that is
    [#], white space and a text, stripped, and [None] when there is no such
    line; the title is then that text or, without one, the stem of the file
    name with hyphens and underscores as spaces, in title case. *)
Theorem extract_title_is_first_heading (filepath content : string) :
  Forall (λ l, bare_heading l = false) (lines content) →
  extract_title_from_heading content = first_heading (lines content) ∧
  heuristic_title filepath content
  = match first_heading (lines content) with
    | Some t => t
    | None => title_case (replace "_" " " (replace "-" " " (stem filepath)))
    end.
Proof.
  intros H. split; [by apply extract_title_first_heading|].
  by apply heuristic_title_by_spec.
Qed.

Lemma extract_title_is_first_heading_witness :
  extract_title_from_heading
    ("Intro" +:+ nl +:+ "## Sub" +:+ nl +:+ "#  Relay storage  " +:+ nl +:+ "text")
  = first_heading
      (lines ("Intro" +:+ nl +:+ "## Sub" +:+ nl +:+ "#  Relay storage  " +:+ nl +:+ "text")).
Proof.
  refine (proj1 (extract_title_is_first_heading EmptyString
                   ("Intro" +:+ nl +:+ "## Sub" +:+ nl +:+ "#  Relay storage  " +:+ nl
                    +:+ "text") _)).
  apply (bool_decide_unpack (Forall _ _)). vm_compute. reflexivity.
Defined.

(** On a content made of a heading line, newlines and a paragraph that a
    blank line or a level-2 heading follows, the description is the
    paragraph, stripped, its runs of white space made one space each, cut
    at 200 characters: 200 characters exactly when the text is that long. *)
Theorem description_is_first_paragraph (title h nls para tail : string) :
  all_chars not_LF h = true →
  nls ≠ EmptyString → all_chars (λ c, bool_decide (c = LF)) nls = true →
  match para with String a _ => a ≠ LF | EmptyString => False end →
  no_end_inside para tail = true →
  paragraph_end tail = true →
  heuristic_description title (String "#" (h +:+ nls +:+ para +:+ tail))
  = take_chars 200 (Re.sub Re.no_flags spaces_re " " (strip para)) ∧
  ((200 <= String.length (Re.sub Re.no_flags spaces_re " " (strip para)))%nat →
   String.length (heuristic_description title (String "#" (h +:+ nls +:+ para +:+ tail)))
   = 200%nat).
Proof.
  intros Hh Hnls Hnl Hpara Hin Hend.
  rewrite (description_of_first_paragraph title h nls para tail) by done.
  split; [done|]. apply normalized_length.
Qed.

Lemma description_is_first_paragraph_witness :
  heuristic_description "Title"
    (String "#" (" Title" +:+ (nl +:+ nl) +:+ ("First  para" +:+ nl +:+ "line2")
                 +:+ (nl +:+ nl +:+ "Second" +:+ nl)))
  = take_chars 200
      (Re.sub Re.no_flags spaces_re " " (strip ("First  para" +:+ nl +:+ "line2"))).
Proof.
  refine (proj1 (description_is_first_paragraph "Title" " Title" (nl +:+ nl)
                   ("First  para" +:+ nl +:+ "line2") (nl +:+ nl +:+ "Second" +:+ nl)
                   _ _ _ _ _ _)).
  - vm_compute. reflexivity.
  - discriminate.
  - vm_compute. reflexivity.
  - discriminate.
  - vm_compute. reflexivity.
  - vm_compute. reflexivity.
Defined.

(** ** The order of the walk *)

Example rglob_md_order :
  rglob_md (list_to_map
              ((λ rel, (docs_prefix +:+ rel, EmptyString)) <$>
                 ["zz/f.md"; "sub/deep/d.md"; "r.md"; "sub/z.md"; "a/e.md"; "b.md";
                  "sub/c.md"; "sub/notes.txt"]))
  = (λ rel, docs_prefix +:+ rel) <$>
      ["b.md"; "r.md"; "a/e.md"; "sub/c.md"; "sub/z.md"; "sub/deep/d.md"; "zz/f.md"].
Proof. by vm_compute. Qed.

(** ** One matching rule *)



